(** * TAD native stream codec and the JPEG plugin guards

    A shallow embedding of [io-tad.cpp] (the native "TAD" reader and writer)
    and of the argument checks of [io-jpeg.cpp].

    Conventions of the embedding
    - bytes are [Init.Byte.byte]; a [std::string] or a [std::vector<char>] is
      a [list byte];
    - [uint64_t], [size_t], [off_t] and [int] values are [Z], conversions
      between them are written out; the host is LP64
      ([sizeof(size_t) == sizeof(uint64_t)], the first branch of the
      dimension read in [readTadHeader]);
    - a [FILE*] is a record holding the bytes of the medium and the cursor;
      every stdio call is a function from a [FILE] to a result and a [FILE];
    - indices into a vector are [nat]: they are bounded by the size of that
      vector, so the [size_t] arithmetic on them cannot wrap. *)

From Stdlib Require Import Strings.String.
From Stdlib Require Import ZArith List Bool Lia.
From coqutil Require Import Byte Word.LittleEndianList.
Import ListNotations.
Local Open Scope Z_scope.

(** ** Host integer types *)

Definition SIZE_MAX : Z := 2 ^ 64 - 1.
Definition PTRDIFF_MAX : Z := 2 ^ 63 - 1.
Definition INT_MAX : Z := 2 ^ 31 - 1.

(** [static_cast<int>] of a [size_t]. *)
Definition to_int (z : Z) : Z := (z + 2 ^ 31) mod 2 ^ 32 - 2 ^ 31.

(** A [size_t] passed where an [off_t] is expected. *)
Definition to_off_t (z : Z) : Z := (z + 2 ^ 63) mod 2 ^ 64 - 2 ^ 63.

(** The value of a [char] holding byte [b]; [char] is signed on the hosts
    the library is built for, so bytes from 128 on are negative. *)
Definition char_value (b : byte) : Z :=
  if byte.unsigned b <? 128 then byte.unsigned b else byte.unsigned b - 256.

Inductive ByteOrder := LittleEndian | BigEndian.

(** [memcpy(dst, &v, sizeof(uint64_t))]: the object representation of a
    [uint64_t]. *)
Definition store_u64 (o : ByteOrder) (v : Z) : list byte :=
  match o with
  | LittleEndian => le_split 8 v
  | BigEndian => rev (le_split 8 v)
  end.

(** [memcpy(&v, src, sizeof(uint64_t))]. *)
Definition load_u64 (o : ByteOrder) (bs : list byte) : Z :=
  match o with
  | LittleEndian => le_combine bs
  | BigEndian => le_combine (rev bs)
  end.

(** The front of [dst] replaced by [src]. *)
Fixpoint overwrite (dst src : list byte) {struct src} : list byte :=
  match src, dst with
  | [], _ => dst
  | _, [] => []
  | s :: src, _ :: dst => s :: overwrite dst src
  end.

(** [memcpy(dst.data() + off, src, length src)] into a vector; every call
    in this file stays inside the vector. *)
Fixpoint memcpy (dst : list byte) (off : nat) (src : list byte) {struct off}
  : list byte :=
  match off with
  | O => overwrite dst src
  | S off =>
      match dst with
      | [] => []
      | d :: dst => d :: memcpy dst off src
      end
  end.

(** ** Error codes *)

Inductive Error :=
| ErrorNone
| ErrorInvalidData
| ErrorSeekingNotSupported
| ErrorFeaturesUnsupported
| ErrorSysErrno.

Definition Error_eqb (a b : Error) : bool :=
  match a, b with
  | ErrorNone, ErrorNone
  | ErrorInvalidData, ErrorInvalidData
  | ErrorSeekingNotSupported, ErrorSeekingNotSupported
  | ErrorFeaturesUnsupported, ErrorFeaturesUnsupported
  | ErrorSysErrno, ErrorSysErrno => true
  | _, _ => false
  end.

(** Ways a call can end without returning to its caller. *)
Inductive Abnormal :=
| OutOfBounds   (* a read past the end of a buffer: undefined behaviour *)
| BadAlloc      (* an allocation request the host refuses: a C++ exception *)
| NullStream    (* a stdio call on a null [FILE*] *)
| NoFuel.       (* the iteration bound of the embedding was reached *)

Inductive outcome (A : Type) :=
| Returns (a : A)
| Aborts (why : Abnormal).
Arguments Returns {A} a.
Arguments Aborts {A} why.

(** A call ends when it does not stop at the iteration bound of the
    embedding. *)
Definition ends {A : Type} (r : outcome A) : Prop :=
  match r with
  | Aborts NoFuel => False
  | _ => True
  end.

(** ** Tag lists *)

Definition str := list byte.

Definition str_eqb (a b : str) : bool :=
  if list_eq_dec Byte.byte_eq_dec a b then true else false.

(** Modelled from the spec: [TagList] (taglist.hpp is not part of the
    sources). A mapping from string keys to string values that iterates in
    insertion order; keys are unique and setting an existing key overwrites
    its value. *)
Definition TagList := list (str * str).

Fixpoint TagList_set (key value : str) (tl : TagList) : TagList :=
  match tl with
  | [] => [(key, value)]
  | (k, v) :: rest =>
      if str_eqb k key then (k, value) :: rest
      else (k, v) :: TagList_set key value rest
  end.

(** ** stdio *)

Record FILE := mkFILE {
  contents : list byte;   (* the bytes of the medium *)
  position : nat;         (* the file position indicator, never negative *)
  seekable : bool;        (* a regular file, as opposed to a pipe *)
  capacity : Z            (* the size the medium can grow to *)
}.

Definition set_position (f : FILE) (p : nat) : FILE :=
  mkFILE (contents f) p (seekable f) (capacity f).

Definition file_size (f : FILE) : Z := Z.of_nat (length (contents f)).

(** The bytes from the cursor to the end of the medium. *)
Definition remaining (f : FILE) : list byte :=
  skipn (position f) (contents f).

(** [fread(ptr, size, nmemb, f)]: the number of complete elements read, the
    bytes stored through [ptr], and the stream afterwards. A request of
    zero bytes returns 0 and leaves the stream alone (ISO C 7.21.8.1). *)
Definition fread (size nmemb : Z) (f : FILE) : Z * list byte * FILE :=
  if size * nmemb =? 0 then (0, [], f)
  else
    let got := firstn (Z.to_nat (size * nmemb)) (remaining f) in
    (Z.of_nat (length got) / size, got,
     set_position f (position f + length got)%nat).

(** [fwrite(ptr, size, 1, f)] on a stream opened with "wb" or "ab": the
    writer never seeks, so the bytes go to the end of the medium. A request
    of zero bytes returns 0 (ISO C 7.21.8.2); when the medium is full the
    bytes that still fit are written and the call returns 0. *)
Definition fwrite (buf : list byte) (f : FILE) : Z * FILE :=
  let size := Z.of_nat (length buf) in
  if size =? 0 then (0, f)
  else
    let room := Z.to_nat (capacity f - file_size f) in
    let put := contents f ++ firstn room buf in
    (if file_size f + size <=? capacity f then 1 else 0,
     mkFILE put (length put) (seekable f) (capacity f)).

(** [ftello(f)]; -1 on a stream that cannot seek. *)
Definition ftello (f : FILE) : Z :=
  if seekable f then Z.of_nat (position f) else -1.

Inductive Whence := SEEK_SET | SEEK_CUR.

(** [fseeko(f, off, whence)]: 0 and the moved stream, or -1. Seeking past
    the end of a regular file is allowed. *)
Definition fseeko (f : FILE) (off : Z) (whence : Whence) : Z * FILE :=
  let target := match whence with
                | SEEK_SET => off
                | SEEK_CUR => Z.of_nat (position f) + off
                end in
  if seekable f && (0 <=? target) && (target <=? PTRDIFF_MAX)
  then (0, set_position f (Z.to_nat target))
  else (-1, f).

(** [rewind(f)]: [fseeko(f, 0, SEEK_SET)] with the result dropped. *)
Definition rewind (f : FILE) : FILE := snd (fseeko f 0 SEEK_SET).

(** [fgetc] followed by [ungetc] of the byte read, as in [hasMore]. *)
Definition peek (f : FILE) : bool :=
  match remaining f with
  | [] => false
  | _ :: _ => true
  end.

(** Two states of one stream: same medium, the cursor apart. *)
Definition same_medium (f f' : FILE) : Prop :=
  contents f' = contents f /\ seekable f' = seekable f /\ capacity f' = capacity f.

(** The stream [f] behind a pipe: same bytes, same cursor, no seeking. *)
Definition as_pipe (f : FILE) : FILE :=
  mkFILE (contents f) (position f) false (capacity f).

(** ** What the sources leave open

    The byte order and the allocator of the host, and the declarations of
    array.hpp, which is not part of the sources. *)

Record Env := mkEnv {
  byte_order : ByteOrder;
  max_alloc : Z;          (* the largest request the allocator grants *)
  typeSize : Z -> Z;      (* bytes per component, by type code *)
  uint8 : Z;              (* the type code of the enumerator [uint8] *)
  default_type : Z        (* the type code of a default-constructed array *)
}.

(** [new], [std::vector<T>(n)]: granted up to the host's limit and never
    beyond [PTRDIFF_MAX] bytes. *)
Definition allocatable (env : Env) (n : Z) : bool :=
  (0 <=? n) && (n <=? max_alloc env) && (n <=? PTRDIFF_MAX).

(** ** Array containers *)

Record ArrayContainer := mkArray {
  dimensions : list Z;
  componentCount : Z;
  componentType : Z;
  globalTagList : TagList;
  componentTagLists : list TagList;
  dimensionTagLists : list TagList;
  data : list byte
}.

Definition set_globalTagList (a : ArrayContainer) (tl : TagList) : ArrayContainer :=
  mkArray (dimensions a) (componentCount a) (componentType a) tl
    (componentTagLists a) (dimensionTagLists a) (data a).

Definition set_componentTagLists (a : ArrayContainer) (tls : list TagList)
  : ArrayContainer :=
  mkArray (dimensions a) (componentCount a) (componentType a) (globalTagList a)
    tls (dimensionTagLists a) (data a).

Definition set_dimensionTagLists (a : ArrayContainer) (tls : list TagList)
  : ArrayContainer :=
  mkArray (dimensions a) (componentCount a) (componentType a) (globalTagList a)
    (componentTagLists a) tls (data a).

Definition set_data (a : ArrayContainer) (bytes : list byte) : ArrayContainer :=
  mkArray (dimensions a) (componentCount a) (componentType a) (globalTagList a)
    (componentTagLists a) (dimensionTagLists a) bytes.

Definition dimensionCount (a : ArrayContainer) : Z :=
  Z.of_nat (length (dimensions a)).

Definition dimension (a : ArrayContainer) (d : nat) : Z :=
  nth d (dimensions a) 0.

Definition componentTagList (a : ArrayContainer) (c : nat) : option TagList :=
  nth_error (componentTagLists a) c.

Definition dimensionTagList (a : ArrayContainer) (d : nat) : option TagList :=
  nth_error (dimensionTagLists a) d.

Definition elementCount (dims : list Z) : Z := fold_right Z.mul 1 dims.

(** Modelled from the spec: the size of the data buffer,
    [componentSize(componentType) * componentCount * Π(dimensions)]. *)
Definition dataSizeOf (env : Env) (dims : list Z) (comps type : Z) : Z :=
  typeSize env type * comps * elementCount dims.

Definition dataSize (env : Env) (a : ArrayContainer) : Z :=
  dataSizeOf env (dimensions a) (componentCount a) (componentType a).

(** Modelled from the spec: the constructor
    [ArrayContainer(dimensions, components, type)]. It owns a buffer of
    [dataSize] bytes and one empty tag list per component and per
    dimension, and it rejects (by an exception, [None] here) sizes that
    cannot be represented or allocated. The buffer is not initialised by
    the constructor; every caller in this file overwrites or drops it, so
    it is filled with zeros. *)
Definition ArrayContainer_new (env : Env) (dims : list Z) (comps type : Z)
  : option ArrayContainer :=
  if allocatable env (dataSizeOf env dims comps type)
     && allocatable env comps
     && forallb (fun d => (0 <=? d) && (d <=? SIZE_MAX)) dims
  then Some (mkArray dims comps type []
               (repeat [] (Z.to_nat comps))
               (repeat [] (length dims))
               (repeat Byte.x00 (Z.to_nat (dataSizeOf env dims comps type))))
  else None.

(** Modelled from the spec: [ArrayContainer()], the empty array. *)
Definition ArrayContainer_default (env : Env) : ArrayContainer :=
  mkArray [] 0 (default_type env) [] [] [] [].

(** The container owns what its shape announces. *)
Definition well_formed (env : Env) (a : ArrayContainer) : Prop :=
  Forall (fun d => 0 <= d <= SIZE_MAX) (dimensions a)
  /\ 0 <= componentCount a <= SIZE_MAX
  /\ 0 <= componentType a < 256
  /\ length (componentTagLists a) = Z.to_nat (componentCount a)
  /\ length (dimensionTagLists a) = length (dimensions a)
  /\ Z.of_nat (length (data a)) = dataSize env a.

(** ** The writer *)

(** The payload of a tag block: every key and value followed by its NUL. *)
Definition appendTag (buf : list byte) (kv : str * str) : list byte :=
  buf ++ fst kv ++ [Byte.x00] ++ snd kv ++ [Byte.x00].

Definition writeTadTagList (env : Env) (f : FILE) (tl : TagList) : bool * FILE :=
  let data := fold_left appendTag tl (repeat Byte.x00 8) in
  let n := Z.of_nat (length data) - 8 in
  let data := memcpy data 0 (store_u64 (byte_order env) n) in
  let '(r, f) := fwrite data f in
  (r =? 1, f).

(** [for (i = 0; i < count; i++) if (!writeTadTagList(f, get(i))) return false;] *)
Fixpoint writeTadTagLists (env : Env) (get : nat -> option TagList)
    (indices : list nat) (f : FILE) : outcome (bool * FILE) :=
  match indices with
  | [] => Returns (true, f)
  | i :: rest =>
      match get i with
      | None => Aborts OutOfBounds
      | Some tl =>
          let '(ok, f) := writeTadTagList env f tl in
          if ok then writeTadTagLists env get rest f else Returns (false, f)
      end
  end.

(** The vector [start] of [writeTad], once it is filled in. *)
Definition writeTad_start (o : ByteOrder) (array : ArrayContainer) : list byte :=
  let dims := length (dimensions array) in
  let start := repeat Byte.x00 (5 + 2 * 8 + dims * 8)%nat in
  let start := memcpy start 0 [Byte.x54] in                       (* 'T' *)
  let start := memcpy start 1 [Byte.x41] in                       (* 'A' *)
  let start := memcpy start 2 [Byte.x44] in                       (* 'D' *)
  let start := memcpy start 3 [Byte.x00] in
  let start := memcpy start 4 [byte.of_Z (componentType array)] in
  let start := memcpy start 5 (store_u64 o (componentCount array)) in
  let start := memcpy start (5 + 8) (store_u64 o (dimensionCount array)) in
  fold_left (fun s d => memcpy s (5 + 2 * 8 + d * 8)%nat
                          (store_u64 o (dimension array d)))
            (seq 0 dims) start.

Definition writeTad (env : Env) (f : FILE) (array : ArrayContainer)
  : outcome (bool * FILE) :=
  let start := writeTad_start (byte_order env) array in
  let '(r, f) := fwrite start f in
  if negb (r =? 1) then Returns (false, f)
  else
    let '(ok, f) := writeTadTagList env f (globalTagList array) in
    if negb ok then Returns (false, f)
    else
      match writeTadTagLists env (componentTagList array)
              (seq 0 (Z.to_nat (componentCount array))) f with
      | Aborts why => Aborts why
      | Returns (false, f) => Returns (false, f)
      | Returns (true, f) =>
          match writeTadTagLists env (dimensionTagList array)
                  (seq 0 (length (dimensions array))) f with
          | Aborts why => Aborts why
          | Returns (false, f) => Returns (false, f)
          | Returns (true, f) =>
              if Z.of_nat (length (data array)) <? dataSize env array
              then Aborts OutOfBounds
              else
                let '(r, f) :=
                  fwrite (firstn (Z.to_nat (dataSize env array)) (data array)) f in
                Returns (r =? 1, f)
          end
      end.

(** ** The reader: tag blocks *)

Inductive StringResult :=
| StringOk (s : str) (len : nat)   (* [true], with [s] and [len] assigned *)
| StringBad                        (* [false] *)
| StringOverrun.                   (* [data[i]] lies past the end of the buffer *)

Inductive ScanResult :=
| ScanBreak (i : nat)
| ScanReject
| ScanOverrun.

(** The [for (;;)] of [readString]; [data] is what is left of the buffer
    from [data[i]] on. *)
Fixpoint readString_scan (data : list byte) (i : nat) : ScanResult :=
  match data with
  | [] => ScanOverrun
  | c :: data =>
      let i := S i in                                   (* c = data[i++] *)
      if char_value c =? 0 then ScanBreak i
      else if (char_value c <? 32) || (char_value c =? 127) then ScanReject
      else readString_scan data i
  end.

(** [std::string(data)]: the bytes before the first NUL. *)
Fixpoint c_string (data : list byte) : str :=
  match data with
  | [] => []
  | c :: data => if char_value c =? 0 then [] else c :: c_string data
  end.

(** [readString(data, s, len)], [data] pointing into a buffer whose bytes
    from that point on are the list. *)
Definition readString (data : list byte) : StringResult :=
  match readString_scan data 0 with
  | ScanBreak i => StringOk (c_string data) i            (* len = i *)
  | ScanReject => StringBad
  | ScanOverrun => StringOverrun
  end.

(** The [for (size_t i = 0; i < data.size(); )] of [readTadTagList]. Every
    turn moves [i] forward, so [length data] turns are enough, see
    [readTadTags_fuel]. *)
Fixpoint readTadTags (fuel : nat) (data : list byte) (i : nat) (tl : TagList)
  : outcome (Error * TagList) :=
  if (i <? length data)%nat then
    match fuel with
    | O => Aborts NoFuel
    | S fuel =>
        match readString (skipn i data) with
        | StringOverrun => Aborts OutOfBounds
        | StringBad => Returns (ErrorInvalidData, tl)
        | StringOk key keyLen =>
            if (length data <=? i + keyLen + 1)%nat
            then Returns (ErrorInvalidData, tl)
            else
              match readString (skipn (i + keyLen + 1) data) with
              | StringOverrun => Aborts OutOfBounds
              | StringBad => Returns (ErrorInvalidData, tl)
              | StringOk value valueLen =>
                  readTadTags fuel data (i + keyLen + 1 + valueLen + 1)
                    (TagList_set key value tl)
              end
        end
    end
  else Returns (ErrorNone, tl).

Definition readTadTagList (env : Env) (f : FILE) (tl : TagList)
  : outcome (Error * TagList * FILE) :=
  let '(r, raw, f) := fread 8 1 f in
  if negb (r =? 1) then Returns (ErrorSysErrno, tl, f)
  else
    let n := load_u64 (byte_order env) raw in
    if n >? SIZE_MAX then Returns (ErrorInvalidData, tl, f)
    else if negb (allocatable env n) then Aborts BadAlloc
    else
      let '(r, data, f) := fread n 1 f in
      if negb (r =? 1) then Returns (ErrorSysErrno, tl, f)
      else
        match readTadTags (length data) data 0 tl with
        | Aborts why => Aborts why
        | Returns (e, tl) => Returns (e, tl, f)
        end.

(** [for (i = 0; i < count; i++) if ((e = readTadTagList(f, get(i))) != ErrorNone) return e;]
    over the tag lists the container owns. *)
Fixpoint readTadTagLists (env : Env) (f : FILE) (tls : list TagList)
  : outcome (Error * list TagList * FILE) :=
  match tls with
  | [] => Returns (ErrorNone, [], f)
  | tl :: rest =>
      match readTadTagList env f tl with
      | Aborts why => Aborts why
      | Returns (e, tl, f) =>
          if negb (Error_eqb e ErrorNone) then Returns (e, tl :: rest, f)
          else
            match readTadTagLists env f rest with
            | Aborts why => Aborts why
            | Returns (e, rest, f) => Returns (e, tl :: rest, f)
            end
      end
  end.

(** ** The reader: records *)

(** A vector of [n] [size_t] filled by one [fread]. *)
Fixpoint load_u64s (o : ByteOrder) (n : nat) (raw : list byte) : list Z :=
  match n with
  | O => []
  | S n => load_u64 o (firstn 8 raw) :: load_u64s o n (skipn 8 raw)
  end.

Definition readTadHeader (env : Env) (f : FILE) (array : ArrayContainer)
  : outcome (Error * ArrayContainer * FILE) :=
  let o := byte_order env in
  let '(r, start, f) := fread (5 + 2 * 8) 1 f in
  if negb (r =? 1) then Returns (ErrorSysErrno, array, f)
  else
    let compCount := load_u64 o (firstn 8 (skipn 5 start)) in
    let dimCount := load_u64 o (firstn 8 (skipn (5 + 8) start)) in
    let at_ i := byte.unsigned (nth i start Byte.x00) in
    if negb (at_ 0%nat =? 84) || negb (at_ 1%nat =? 65) || negb (at_ 2%nat =? 68)
       || negb (at_ 3%nat =? 0)
       || (at_ 4%nat >? 15)
       || (compCount >? SIZE_MAX)
       || (dimCount >? SIZE_MAX)
    then Returns (ErrorInvalidData, array, f)
    else if negb (allocatable env (8 * dimCount)) then Aborts BadAlloc
    else
      let '(r, raw, f) := fread 8 dimCount f in
      if negb (r =? dimCount) then Returns (ErrorSysErrno, array, f)
      else
        let dims := load_u64s o (Z.to_nat dimCount) raw in
        match ArrayContainer_new env dims compCount (at_ 4%nat) with
        | None => Aborts BadAlloc
        | Some array =>
            match readTadTagList env f (globalTagList array) with
            | Aborts why => Aborts why
            | Returns (e, tl, f) =>
                let array := set_globalTagList array tl in
                if negb (Error_eqb e ErrorNone) then Returns (e, array, f)
                else
                  match readTadTagLists env f (componentTagLists array) with
                  | Aborts why => Aborts why
                  | Returns (e, tls, f) =>
                      let array := set_componentTagLists array tls in
                      if negb (Error_eqb e ErrorNone) then Returns (e, array, f)
                      else
                        match readTadTagLists env f (dimensionTagLists array) with
                        | Aborts why => Aborts why
                        | Returns (e, tls, f) =>
                            Returns (e, set_dimensionTagLists array tls, f)
                        end
                  end
            end
        end.

Definition readTadData (env : Env) (f : FILE) (array : ArrayContainer)
  : bool * ArrayContainer * FILE :=
  let '(r, got, f) := fread (dataSize env array) 1 f in
  (r =? 1, set_data array (got ++ skipn (length got) (data array)), f).

Definition skipTadData (env : Env) (f : FILE) (array : ArrayContainer)
  : bool * FILE :=
  let '(r, f) := fseeko f (to_off_t (dataSize env array)) SEEK_CUR in
  (r =? 0, f).

(** ** The stream object *)

Record FormatImportExportTAD := mkTAD {
  _f : option FILE;
  _arrayCount : Z;
  _arrayOffsets : list Z
}.

(** The constructor. *)
Definition TAD_new : FormatImportExportTAD := mkTAD None (-2) [].

(** What a file name stands for when it is opened. *)
Record Medium := mkMedium {
  stored : option (list byte);   (* [None]: [fopen] fails *)
  can_seek : bool;
  space : Z
}.

Inductive Mode := ModeRead | ModeWrite | ModeAppend.     (* "rb", "wb", "ab" *)

Definition fopen (m : Medium) (mode : Mode) : option FILE :=
  match stored m with
  | None => None
  | Some bytes =>
      Some match mode with
           | ModeRead => mkFILE bytes 0 (can_seek m) (space m)
           | ModeWrite => mkFILE [] 0 (can_seek m) (space m)
           | ModeAppend =>
               mkFILE bytes (length bytes) (can_seek m) (space m)
           end
  end.

Definition openForReading (st : FormatImportExportTAD) (m : Medium)
  : Error * FormatImportExportTAD :=
  let f := fopen m ModeRead in
  (match f with Some _ => ErrorNone | None => ErrorSysErrno end,
   mkTAD f (_arrayCount st) (_arrayOffsets st)).

Definition openForWriting (st : FormatImportExportTAD) (m : Medium) (append : bool)
  : Error * FormatImportExportTAD :=
  let f := fopen m (if append then ModeAppend else ModeWrite) in
  (match f with Some _ => ErrorNone | None => ErrorSysErrno end,
   mkTAD f (_arrayCount st) (_arrayOffsets st)).

Definition hasMore (st : FormatImportExportTAD) : outcome bool :=
  match _f st with
  | None => Aborts NullStream
  | Some f => Returns (peek f)
  end.

(** How the [while (hasMore())] of [arrayCount] is left. *)
Inductive ScanExit :=
| ScanEnd (f : FILE) (offsets : list Z)                (* the condition failed *)
| ScanReturn (ret : Z) (st : FormatImportExportTAD).   (* a [return] in the body *)

(** The [while] loop of [arrayCount]; [count] is [_arrayCount] on entry.
    Every turn reads a header, so the cursor moves forward and one turn per
    byte of the medium is enough, see [scanArrays_fuel]. *)
Fixpoint scanArrays (env : Env) (fuel : nat) (count : Z) (f : FILE)
    (offsets : list Z) : outcome ScanExit :=
  if peek f then
    match fuel with
    | O => Aborts NoFuel
    | S fuel =>
        let arrayPos := ftello f in
        if arrayPos <? 0 then Returns (ScanReturn (-1) (mkTAD (Some f) (-1) []))
        else
          match readTadHeader env f (ArrayContainer_default env) with
          | Aborts why => Aborts why
          | Returns (e, array, f) =>
              if negb (Error_eqb e ErrorNone)
              then Returns (ScanReturn (-1) (mkTAD (Some f) count offsets))
              else
                let '(ok, f) := skipTadData env f array in
                if negb ok
                then Returns (ScanReturn (-1) (mkTAD (Some f) count offsets))
                else
                  let offsets := offsets ++ [arrayPos] in
                  if (Z.of_nat (length offsets) =? INT_MAX) && peek f
                  then Returns (ScanReturn (-1) (mkTAD (Some f) (-1) []))
                  else scanArrays env fuel count f offsets
          end
    end
  else Returns (ScanEnd f offsets).

Definition arrayCount (env : Env) (st : FormatImportExportTAD)
  : outcome (Z * FormatImportExportTAD) :=
  if _arrayCount st >=? -1 then Returns (_arrayCount st, st)
  else
    match _f st with
    | None => Returns (-1, st)
    | Some f =>
        let curPos := ftello f in
        if curPos <? 0 then Returns (-1, mkTAD (Some f) (-1) (_arrayOffsets st))
        else
          let f := rewind f in
          match scanArrays env (S (length (contents f))) (_arrayCount st) f
                  (_arrayOffsets st) with
          | Aborts why => Aborts why
          | Returns (ScanReturn ret st) => Returns (ret, st)
          | Returns (ScanEnd f offsets) =>
              let '(r, f) := fseeko f curPos SEEK_SET in
              if r <? 0 then Returns (-1, mkTAD (Some f) (-1) [])
              else
                let n := to_int (Z.of_nat (length offsets)) in
                Returns (n, mkTAD (Some f) n offsets)
          end
    end.

Definition with_file (st : FormatImportExportTAD) (f : FILE)
  : FormatImportExportTAD :=
  mkTAD (Some f) (_arrayCount st) (_arrayOffsets st).

(** The stream object with its file behind a pipe. *)
Definition behind_pipe (st : FormatImportExportTAD) : FormatImportExportTAD :=
  mkTAD (option_map as_pipe (_f st)) (_arrayCount st) (_arrayOffsets st).

(** The part of [readArray] after the seek: header, then data. [error] is
    the value [*error] holds; it is assigned on failure only. *)
Definition readArray_body (env : Env) (st : FormatImportExportTAD) (error : Error)
  : outcome (ArrayContainer * Error * FormatImportExportTAD) :=
  match _f st with
  | None => Aborts NullStream
  | Some f =>
      match readTadHeader env f (ArrayContainer_default env) with
      | Aborts why => Aborts why
      | Returns (e, array, f) =>
          if negb (Error_eqb e ErrorNone)
          then Returns (ArrayContainer_default env, e, with_file st f)
          else
            let '(ok, array, f) := readTadData env f array in
            let e := if negb ok then ErrorSysErrno else e in
            if negb (Error_eqb e ErrorNone)
            then Returns (ArrayContainer_default env, e, with_file st f)
            else Returns (array, error, with_file st f)
      end
  end.

Definition readArray (env : Env) (st : FormatImportExportTAD) (error : Error)
    (arrayIndex : Z)
  : outcome (ArrayContainer * Error * FormatImportExportTAD) :=
  if arrayIndex >=? 0 then
    match arrayCount env st with
    | Aborts why => Aborts why
    | Returns (n, st) =>
        if n <? 0
        then Returns (ArrayContainer_default env, ErrorSeekingNotSupported, st)
        else
          match arrayCount env st with
          | Aborts why => Aborts why
          | Returns (n, st) =>
              if arrayIndex >=? n
              then Returns (ArrayContainer_default env, ErrorInvalidData, st)
              else
                match _f st, nth_error (_arrayOffsets st) (Z.to_nat arrayIndex) with
                | None, _ => Aborts NullStream
                | Some _, None => Aborts OutOfBounds
                | Some f, Some offset =>
                    let '(r, f) := fseeko f offset SEEK_SET in
                    if r <? 0
                    then Returns (ArrayContainer_default env, ErrorSysErrno,
                                  with_file st f)
                    else readArray_body env (with_file st f) error
                end
          end
    end
  else readArray_body env st error.

Definition writeArray (env : Env) (st : FormatImportExportTAD)
    (array : ArrayContainer) : outcome (Error * FormatImportExportTAD) :=
  match _f st with
  | None => Aborts NullStream
  | Some f =>
      match writeTad env f array with
      | Aborts why => Aborts why
      | Returns (ok, f) =>
          Returns (if ok then ErrorNone else ErrorSysErrno, with_file st f)
      end
  end.

(** [close]; the [fclose] itself is taken to succeed. The second component
    is the medium as the stream leaves it. *)
Definition close (st : FormatImportExportTAD) (m : Medium)
  : Error * FormatImportExportTAD * Medium :=
  match _f st with
  | None => (ErrorNone, st, m)
  | Some f =>
      (ErrorNone, mkTAD None (_arrayCount st) (_arrayOffsets st),
       mkMedium (Some (contents f)) (can_seek m) (space m))
  end.

(** ** The JPEG plugin: what it refuses *)

Module JPEG.

(** [FormatImportExportJPEG::openForWriting]; [opened] is the outcome of
    the [fopen] (or of taking [stdout]) that follows the check. *)
Definition openForWriting (opened : bool) (append : bool) : Error :=
  if append then ErrorFeaturesUnsupported
  else if opened then ErrorNone else ErrorSysErrno.

(** The guard that opens [FormatImportExportJPEG::writeArray]; [||] is
    evaluated left to right, so the dimensions are looked at for arrays of
    two dimensions only. *)
Definition refuses (env : Env) (array : ArrayContainer) : bool :=
  negb (dimensionCount array =? 2)
  || (dimension array 0 <=? 0) || (dimension array 1 <=? 0)
  || (dimension array 0 >? 2147483647) || (dimension array 1 >? 2147483647)
  || negb (componentType array =? uint8 env)
  || (negb (componentCount array =? 1) && negb (componentCount array =? 3)).

(** [FormatImportExportJPEG::writeArray]; [compress] stands for the calls
    into libjpeg and the final [fflush]. *)
Definition writeArray (env : Env) (compress : ArrayContainer -> Error)
    (array : ArrayContainer) : Error :=
  if refuses env array then ErrorFeaturesUnsupported else compress array.

End JPEG.

(** ** The record layout of the format description

    Written after the byte layout table of the specification, to be
    compared with what [writeTad] emits. *)

Definition tag_payload (tl : TagList) : list byte :=
  flat_map (fun kv => fst kv ++ [Byte.x00] ++ snd kv ++ [Byte.x00]) tl.

Definition tag_block (o : ByteOrder) (tl : TagList) : list byte :=
  store_u64 o (Z.of_nat (length (tag_payload tl))) ++ tag_payload tl.

Definition record_header (o : ByteOrder) (a : ArrayContainer) : list byte :=
  [Byte.x54; Byte.x41; Byte.x44]                          (* magic "TAD" *)
  ++ [Byte.x00]                                           (* reserved *)
  ++ [byte.of_Z (componentType a)]                        (* type code *)
  ++ store_u64 o (componentCount a)
  ++ store_u64 o (dimensionCount a)
  ++ flat_map (store_u64 o) (dimensions a).

Definition record_layout (env : Env) (a : ArrayContainer) : list byte :=
  let o := byte_order env in
  record_header o a
  ++ tag_block o (globalTagList a)
  ++ flat_map (tag_block o) (firstn (Z.to_nat (componentCount a)) (componentTagLists a))
  ++ flat_map (tag_block o) (firstn (length (dimensions a)) (dimensionTagLists a))
  ++ firstn (Z.to_nat (dataSize env a)) (data a).

(** The arrays a JPEG file can hold, in the words of the specification. *)
Definition jpeg_encodable (env : Env) (a : ArrayContainer) : Prop :=
  length (dimensions a) = 2%nat
  /\ 1 <= dimension a 0 <= 2 ^ 31 - 1
  /\ 1 <= dimension a 1 <= 2 ^ 31 - 1
  /\ componentType a = uint8 env
  /\ (componentCount a = 1 \/ componentCount a = 3).

(** The bytes a key or a value may hold: printable ASCII. *)
Definition printable (b : byte) : Prop := 32 <= byte.unsigned b <= 126.

Definition printable_tags (tl : TagList) : Prop :=
  Forall (fun kv => Forall printable (fst kv) /\ Forall printable (snd kv)) tl.

(** ** Records the reader takes *)

(** A tag list as the reader returns it when it held one tag: the first
    byte of the value is gone. *)
Definition behead (tags : TagList) : TagList :=
  map (fun kv => (fst kv, tl (snd kv))) tags.

Definition as_read (a : ArrayContainer) : ArrayContainer :=
  mkArray (dimensions a) (componentCount a) (componentType a)
    (behead (globalTagList a))
    (map behead (componentTagLists a))
    (map behead (dimensionTagLists a))
    (data a).

(** A tag list of one tag, with a printable key and a value that is
    printable from its second byte on. *)
Definition one_tag (env : Env) (tl : TagList) : Prop :=
  exists key c value,
    tl = [(key, c :: value)]
    /\ Forall printable key /\ Forall printable value
    /\ allocatable env (Z.of_nat (length key + length value + 3)) = true.

(** A well-formed array with data, of a size the host can allocate, with
    one tag in every tag list. *)
Definition readable (env : Env) (a : ArrayContainer) : Prop :=
  well_formed env a
  /\ componentType a <= 15
  /\ 0 < dataSize env a
  /\ allocatable env (dataSize env a) = true
  /\ allocatable env (componentCount a) = true
  /\ allocatable env (8 * dimensionCount a) = true
  /\ one_tag env (globalTagList a)
  /\ Forall (one_tag env) (componentTagLists a)
  /\ Forall (one_tag env) (dimensionTagLists a).

(** The stream [f] once [bytes] were written to it. *)
Definition appended (f : FILE) (bytes : list byte) : FILE :=
  mkFILE (contents f ++ bytes) (length (contents f ++ bytes)) (seekable f)
    (capacity f).

(** Where the records of [arrays] start in a file whose first record
    starts at [start]. *)
Fixpoint record_offsets (env : Env) (start : nat) (arrays : list ArrayContainer)
  : list Z :=
  match arrays with
  | [] => []
  | a :: rest =>
      Z.of_nat start
      :: record_offsets env (start + length (record_layout env a)) rest
  end.

(** ** Damaged records, in the words of the specification *)

(** A complete preamble whose magic bytes are altered, whose reserved byte
    is not zero or whose type code is 16 or more. *)
Definition damaged_preamble (bytes : list byte) : Prop :=
  (21 <= length bytes)%nat
  /\ (nth 0 bytes Byte.x00 <> Byte.x54
      \/ nth 1 bytes Byte.x00 <> Byte.x41
      \/ nth 2 bytes Byte.x00 <> Byte.x44
      \/ nth 3 bytes Byte.x00 <> Byte.x00
      \/ 16 <= byte.unsigned (nth 4 bytes Byte.x00)).

(** A tag block whose length field announces [n] bytes, a request the host
    can allocate, with fewer than [n] bytes left behind it. *)
Definition truncated_tag_block (env : Env) (bytes : list byte) : Prop :=
  exists n tail,
    bytes = store_u64 (byte_order env) n ++ tail
    /\ allocatable env n = true
    /\ Z.of_nat (length tail) < n.

(** The fixed part of a record: what [readTadHeader] does before it turns
    to the tag blocks, with the container it builds and the stream it
    leaves when that part is sound. *)
Definition readTadPreamble (env : Env) (f : FILE) : option (ArrayContainer * FILE) :=
  let o := byte_order env in
  let '(r, start, f) := fread (5 + 2 * 8) 1 f in
  if negb (r =? 1) then None
  else
    let compCount := load_u64 o (firstn 8 (skipn 5 start)) in
    let dimCount := load_u64 o (firstn 8 (skipn (5 + 8) start)) in
    let at_ i := byte.unsigned (nth i start Byte.x00) in
    if negb (at_ 0%nat =? 84) || negb (at_ 1%nat =? 65) || negb (at_ 2%nat =? 68)
       || negb (at_ 3%nat =? 0)
       || (at_ 4%nat >? 15)
       || (compCount >? SIZE_MAX)
       || (dimCount >? SIZE_MAX)
    then None
    else if negb (allocatable env (8 * dimCount)) then None
    else
      let '(r, raw, f) := fread 8 dimCount f in
      if negb (r =? dimCount) then None
      else
        match ArrayContainer_new env (load_u64s o (Z.to_nat dimCount) raw)
                compCount (at_ 4%nat) with
        | None => None
        | Some array => Some (array, f)
        end.

(** The number of tag blocks of a record. *)
Definition tagBlockCount (a : ArrayContainer) : nat :=
  (1 + length (componentTagLists a) + length (dimensionTagLists a))%nat.

(** ** Sessions

    The call sequences the testable properties speak of. *)

(** [writeArray] for each array in turn, collecting the error codes. *)
Fixpoint writeArrays (env : Env) (st : FormatImportExportTAD)
    (arrays : list ArrayContainer)
  : outcome (list Error * FormatImportExportTAD) :=
  match arrays with
  | [] => Returns ([], st)
  | a :: rest =>
      match writeArray env st a with
      | Aborts why => Aborts why
      | Returns (e, st) =>
          match writeArrays env st rest with
          | Aborts why => Aborts why
          | Returns (es, st) => Returns (e :: es, st)
          end
      end
  end.

(** Open [m] for writing, write [arrays], close. *)
Definition write_session (env : Env) (m : Medium) (append : bool)
    (arrays : list ArrayContainer) : outcome (list Error * Medium) :=
  let '(_, st) := openForWriting TAD_new m append in
  match writeArrays env st arrays with
  | Aborts why => Aborts why
  | Returns (es, st) => Returns (es, snd (close st m))
  end.

(** A fresh stream object opened for reading on [m]. *)
Definition reader_on (m : Medium) : FormatImportExportTAD :=
  snd (openForReading TAD_new m).

(** [count] calls of [readArray(&error, -1)] in a row, each with [*error]
    preset to [ErrorNone]. *)
Fixpoint readSequentially (env : Env) (st : FormatImportExportTAD) (count : nat)
  : outcome (list (ArrayContainer * Error) * FormatImportExportTAD) :=
  match count with
  | O => Returns ([], st)
  | S count =>
      match readArray env st ErrorNone (-1) with
      | Aborts why => Aborts why
      | Returns (a, e, st) =>
          match readSequentially env st count with
          | Aborts why => Aborts why
          | Returns (rs, st) => Returns ((a, e) :: rs, st)
          end
      end
  end.

(** Decode one tag block held in a stream of its own. *)
Definition decode_tag_block (env : Env) (block : list byte)
  : outcome (Error * TagList * FILE) :=
  readTadTagList env (mkFILE block 0 true (Z.of_nat (length block))) [].

(** What a call returned, without the stream it leaves behind. *)
Definition result_of {A : Type} (r : outcome (A * FormatImportExportTAD))
  : option A :=
  match r with
  | Returns (a, _) => Some a
  | Aborts _ => None
  end.

(** A regular file with room to spare that holds [bytes]. *)
Definition file_holding (bytes : list byte) : Medium :=
  mkMedium (Some bytes) true 65536.

(** ** Test vectors *)

(** A little-endian host whose allocator grants 64 KiB; every component is
    one byte wide and [uint8] has type code 1. *)
Definition host : Env := mkEnv LittleEndian 65536 (fun _ => 1) 1 1.

Definition text (s : String.string) : str := String.list_byte_of_string s.
Arguments text s%_string.

Definition disk : Medium := file_holding [].
Definition pipe_of (m : Medium) : Medium := mkMedium (stored m) false (space m).

(** A 2-element array of one component with one tag in every scope. *)
Definition sample : ArrayContainer :=
  mkArray [2] 1 1
    [(text "ab", text "cd")]
    [[(text "k", text "vw")]]
    [[(text "k", text "vw")]]
    [Byte.x01; Byte.x02].

(** What the reader makes of [sample]. *)
Definition sample_read : ArrayContainer :=
  mkArray [2] 1 1
    [(text "ab", text "d")]
    [[(text "k", text "w")]]
    [[(text "k", text "w")]]
    [Byte.x01; Byte.x02].

(** [sample] with an empty value under its global key. *)
Definition sample_empty_value : ArrayContainer :=
  set_globalTagList sample [(text "a", [])].

(** Four components: more than a JPEG file can hold. *)
Definition cmyk : ArrayContainer := mkArray [4; 4] 4 1 [] [] [] [].

(** A stream object whose file is open on an empty regular file. *)
Definition fresh_writer : FormatImportExportTAD :=
  mkTAD (Some (mkFILE [] 0 true 65536)) (-2) [].

(** The record of [sample] with 'X' for the 'T' of the magic bytes. *)
Definition damaged_record : list byte :=
  Byte.x58 :: tl (record_layout host sample).

(** A stream object open on a regular file that holds [bytes], the count
    not computed yet. *)
Definition reader_at (bytes : list byte) (cursor : nat) : FormatImportExportTAD :=
  mkTAD (Some (mkFILE bytes cursor true 65536)) (-2) [].

(** A record with no component and no dimension whose global tag block
    announces 100 bytes and holds 3. *)
Definition truncated_record : list byte :=
  record_header LittleEndian (mkArray [] 0 1 [] [] [] [])
  ++ store_u64 LittleEndian 100 ++ text "abc".

(** * Properties *)

(** ** Memory and integers *)

Lemma store_u64_length o v : length (store_u64 o v) = 8%nat.
Proof. destruct o; simpl; rewrite ?length_rev; reflexivity. Qed.

Lemma load_store_u64 o v : 0 <= v <= SIZE_MAX -> load_u64 o (store_u64 o v) = v.
Proof.
  intros Hv. unfold load_u64, store_u64.
  destruct o; rewrite ?rev_involutive, le_combine_split;
    apply Z.mod_small; unfold SIZE_MAX in Hv; simpl; lia.
Qed.

Lemma overwrite_front (src : list byte) : forall dst,
  (length src <= length dst)%nat ->
  overwrite dst src = src ++ skipn (length src) dst.
Proof.
  induction src as [|s src IH]; intros [|d dst] Hlen; simpl in *; try reflexivity; try lia.
  rewrite IH by lia. reflexivity.
Qed.

Lemma memcpy_front (dst src : list byte) :
  (length src <= length dst)%nat ->
  memcpy dst 0 src = src ++ skipn (length src) dst.
Proof. apply overwrite_front. Qed.

Lemma memcpy_behind (pre : list byte) : forall dst off src,
  off = length pre ->
  memcpy (pre ++ dst) off src = pre ++ memcpy dst 0 src.
Proof.
  induction pre as [|p pre IH]; intros dst off src ->; simpl.
  - reflexivity.
  - rewrite IH by reflexivity. reflexivity.
Qed.

Lemma skipn_repeat {A} (x : A) n m : skipn n (repeat x (n + m)) = repeat x m.
Proof. induction n; simpl; auto. Qed.

(** ** The writer *)

Lemma appendTag_payload tl buf :
  fold_left appendTag tl buf = buf ++ tag_payload tl.
Proof.
  revert buf. induction tl as [|kv tl IH]; intros buf; simpl.
  - now rewrite app_nil_r.
  - rewrite IH. unfold appendTag. rewrite <- app_assoc. reflexivity.
Qed.

Lemma fwrite_done buf f f' :
  fwrite buf f = (1, f') ->
  contents f' = contents f ++ buf
  /\ seekable f' = seekable f /\ capacity f' = capacity f.
Proof.
  unfold fwrite. destruct (Z.of_nat (length buf) =? 0); [discriminate|].
  destruct (file_size f + Z.of_nat (length buf) <=? capacity f) eqn:Hfit;
    [|discriminate].
  intros H; injection H as <-. simpl. apply Z.leb_le in Hfit.
  rewrite firstn_all2 by lia. auto.
Qed.

Lemma writeTadTagList_block env f tl f' :
  writeTadTagList env f tl = (true, f') ->
  contents f' = contents f ++ tag_block (byte_order env) tl
  /\ seekable f' = seekable f /\ capacity f' = capacity f.
Proof.
  unfold writeTadTagList. rewrite appendTag_payload.
  set (payload := tag_payload tl).
  replace (Z.of_nat (length (repeat Byte.x00 8 ++ payload)) - 8)
    with (Z.of_nat (length payload))
    by (rewrite length_app, repeat_length; lia).
  rewrite memcpy_front
    by (rewrite store_u64_length, length_app, repeat_length; lia).
  rewrite store_u64_length.
  change (skipn 8 (repeat Byte.x00 8 ++ payload)) with payload.
  fold (tag_block (byte_order env) tl).
  destruct (fwrite _ f) as [r f1] eqn:Hw. intros H; injection H as Hr <-.
  apply Z.eqb_eq in Hr; subst r. now apply fwrite_done.
Qed.

Lemma skipn_nth_error {A} (l : list A) : forall i x,
  nth_error l i = Some x -> skipn i l = x :: skipn (S i) l.
Proof.
  induction l as [|y l IH]; intros [|i] x H; try discriminate.
  - injection H as ->. reflexivity.
  - apply IH in H. exact H.
Qed.

Lemma writeTadTagLists_blocks env (tls : list TagList) n :
  forall first f f',
    writeTadTagLists env (nth_error tls) (seq first n) f = Returns (true, f') ->
    contents f' = contents f
                  ++ flat_map (tag_block (byte_order env)) (firstn n (skipn first tls))
    /\ seekable f' = seekable f /\ capacity f' = capacity f.
Proof.
  induction n as [|n IH]; intros first f f'; cbn [seq writeTadTagLists].
  - intros H; injection H as <-. simpl. now rewrite app_nil_r.
  - destruct (nth_error tls first) as [tl|] eqn:Hget; [|discriminate].
    destruct (writeTadTagList env f tl) as [ok f1] eqn:Hw.
    destruct ok; [|discriminate].
    intros H. apply IH in H. apply writeTadTagList_block in Hw.
    destruct H as (Hc & Hs & Hk), Hw as (Hc1 & Hs1 & Hk1).
    rewrite Hc, Hc1, Hs, Hs1, Hk, Hk1.
    rewrite (skipn_nth_error _ _ _ Hget). cbn [firstn flat_map].
    now rewrite <- !app_assoc.
Qed.

Lemma header_dimensions o (dims : list Z) n :
  forall first (pre : list byte),
    length pre = (5 + 2 * 8 + first * 8)%nat ->
    (first + n <= length dims)%nat ->
    fold_left (fun s d => memcpy s (5 + 2 * 8 + d * 8)%nat (store_u64 o (nth d dims 0)))
      (seq first n) (pre ++ repeat Byte.x00 (n * 8))
    = pre ++ flat_map (store_u64 o) (firstn n (skipn first dims)).
Proof.
  induction n as [|n IH]; intros first pre Hpre Hlen.
  - simpl. reflexivity.
  - cbn [seq fold_left].
    rewrite memcpy_behind by lia.
    replace (S n * 8)%nat with (8 + n * 8)%nat by lia.
    rewrite memcpy_front by (rewrite store_u64_length, repeat_length; lia).
    rewrite store_u64_length, skipn_repeat, app_assoc.
    rewrite IH by (rewrite ?length_app, ?store_u64_length; lia).
    rewrite <- app_assoc. f_equal.
    destruct (nth_error dims first) as [d|] eqn:Hget.
    + rewrite (nth_error_nth _ _ 0 Hget), (skipn_nth_error _ _ _ Hget).
      reflexivity.
    + apply nth_error_None in Hget. lia.
Qed.

Lemma writeTad_start_header o a : writeTad_start o a = record_header o a.
Proof.
  unfold writeTad_start, record_header, dimension, dimensionCount.
  set (c := byte.of_Z (componentType a)).
  pose proof (store_u64_length o (componentCount a)) as Hcc.
  pose proof (store_u64_length o (Z.of_nat (length (dimensions a)))) as Hdc.
  destruct (store_u64 o (componentCount a))
    as [|c0 [|c1 [|c2 [|c3 [|c4 [|c5 [|c6 [|c7 [|]]]]]]]]]; try discriminate.
  destruct (store_u64 o (Z.of_nat (length (dimensions a))))
    as [|d0 [|d1 [|d2 [|d3 [|d4 [|d5 [|d6 [|d7 [|]]]]]]]]]; try discriminate.
  replace (5 + 2 * 8 + length (dimensions a) * 8)%nat
    with (21 + length (dimensions a) * 8)%nat by lia.
  rewrite repeat_app.
  match goal with
  | |- fold_left _ _ ?s = _ =>
      replace s with ([Byte.x54; Byte.x41; Byte.x44; Byte.x00; c;
                       c0; c1; c2; c3; c4; c5; c6; c7;
                       d0; d1; d2; d3; d4; d5; d6; d7]
                      ++ repeat Byte.x00 (length (dimensions a) * 8))
  end.
  - rewrite header_dimensions by (simpl; lia).
    rewrite firstn_all. reflexivity.
  - reflexivity.
Qed.

Lemma writeTad_layout env f a f' :
  writeTad env f a = Returns (true, f') ->
  contents f' = contents f ++ record_layout env a.
Proof.
  unfold writeTad. rewrite writeTad_start_header.
  set (o := byte_order env).
  destruct (fwrite (record_header o a) f) as [r f1] eqn:Hw1.
  destruct (r =? 1) eqn:Hr; [|discriminate]. cbn [negb].
  apply Z.eqb_eq in Hr; subst r. apply fwrite_done in Hw1 as (Hc1 & _ & _).
  destruct (writeTadTagList env f1 (globalTagList a)) as [ok f2] eqn:Hw2.
  destruct ok; [|discriminate]. cbn [negb].
  apply writeTadTagList_block in Hw2 as (Hc2 & _ & _).
  destruct (writeTadTagLists env (componentTagList a) _ f2) as [[[|] f3]|] eqn:Hw3;
    try discriminate.
  apply writeTadTagLists_blocks in Hw3 as (Hc3 & _ & _).
  destruct (writeTadTagLists env (dimensionTagList a) _ f3) as [[[|] f4]|] eqn:Hw4;
    try discriminate.
  apply writeTadTagLists_blocks in Hw4 as (Hc4 & _ & _).
  destruct (Z.of_nat (length (data a)) <? dataSize env a); [discriminate|].
  destruct (fwrite _ f4) as [r f5] eqn:Hw5.
  intros H; injection H as Hr <-. apply Z.eqb_eq in Hr; subst r.
  apply fwrite_done in Hw5 as (Hc5 & _ & _).
  rewrite Hc5, Hc4, Hc3, Hc2, Hc1. unfold record_layout. fold o.
  now rewrite <- !app_assoc.
Qed.

(** C4: for every container [writeArray] accepts, that is, for which it
    returns [ErrorNone], the bytes added to the stream are exactly the
    record layout: the magic bytes 'T' 'A' 'D', a zero byte, the type code
    byte, the component count, the dimension count and the dimension sizes
    as 8-byte integers in the byte order of the host, the global tag block,
    one tag block per component, one per dimension, both in index order,
    and the data bytes. *)
Theorem writeArray_emits_record_layout env st f a st' :
  _f st = Some f ->
  writeArray env st a = Returns (ErrorNone, st') ->
  exists f', _f st' = Some f' /\ contents f' = contents f ++ record_layout env a.
Proof.
  unfold writeArray. intros ->.
  destruct (writeTad env f a) as [[ok f1]|] eqn:Hw; [|discriminate].
  destruct ok; [|discriminate].
  intros H; injection H as <-. exists f1. split; [reflexivity|].
  now apply writeTad_layout.
Qed.

Lemma writeArray_emits_record_layout_witness :
  exists f', _f (mkTAD (Some (mkFILE (record_layout host sample) 71 true 65536)) (-2) [])
             = Some f'
             /\ contents f' = [] ++ record_layout host sample.
Proof.
  apply (writeArray_emits_record_layout host fresh_writer
           (mkFILE [] 0 true 65536) sample);
    [reflexivity | vm_compute; reflexivity].
Defined.

(** ** The JPEG plugin *)

Lemma jpeg_refuses_iff env a :
  JPEG.refuses env a = false <-> jpeg_encodable env a.
Proof.
  unfold JPEG.refuses, jpeg_encodable, dimensionCount.
  rewrite !orb_false_iff, andb_false_iff, !negb_false_iff.
  rewrite !Z.eqb_eq, !Z.leb_gt, !Z.gtb_ltb, !Z.ltb_ge.
  split.
  - intros [[[[[[Hn H0] H1] H2] H3] Ht] Hc].
    repeat split; lia.
  - intros (Hn & H0 & H1 & Ht & Hc).
    repeat split; lia.
Qed.

(** C9: the JPEG plugin answers a request to append with
    [ErrorFeaturesUnsupported], and [writeArray] answers with
    [ErrorFeaturesUnsupported] for every array that is not two-dimensional
    with both sizes in [1, 2^31-1], of type [uint8] and with 1 or 3
    components. *)
Theorem jpeg_unsupported_requests env compress opened a :
  JPEG.openForWriting opened true = ErrorFeaturesUnsupported
  /\ (~ jpeg_encodable env a ->
      JPEG.writeArray env compress a = ErrorFeaturesUnsupported).
Proof.
  split; [reflexivity|].
  intros Hno. unfold JPEG.writeArray.
  destruct (JPEG.refuses env a) eqn:Hr; [reflexivity|].
  apply jpeg_refuses_iff in Hr. contradiction.
Qed.

Lemma jpeg_unsupported_requests_witness :
  ~ jpeg_encodable host cmyk
  /\ JPEG.writeArray host (fun _ => ErrorNone) cmyk = ErrorFeaturesUnsupported.
Proof.
  assert (H : ~ jpeg_encodable host cmyk).
  { unfold jpeg_encodable; simpl. intros (_ & _ & _ & _ & [H | H]); discriminate. }
  split; [exact H|].
  exact (proj2 (jpeg_unsupported_requests host (fun _ => ErrorNone) true cmyk) H).
Defined.

(** ** stdio *)

Lemma fread_complete size f :
  0 < size ->
  (Z.to_nat size <= length (remaining f))%nat ->
  fread size 1 f
  = (1, firstn (Z.to_nat size) (remaining f),
     set_position f (position f + Z.to_nat size)).
Proof.
  intros Hpos Hlen. unfold fread.
  rewrite Z.mul_1_r. destruct (size =? 0) eqn:H0; [lia|].
  rewrite length_firstn, Nat.min_l by exact Hlen.
  rewrite Z2Nat.id by lia. rewrite Z.div_same by lia. reflexivity.
Qed.

Lemma fread_short size f :
  (length (remaining f) < Z.to_nat size)%nat ->
  fst (fst (fread size 1 f)) <> 1.
Proof.
  intros Hlen. unfold fread. rewrite Z.mul_1_r.
  destruct (size =? 0) eqn:H0; [simpl; lia|]. cbn [fst].
  rewrite firstn_all2 by lia.
  rewrite Z.div_small; lia.
Qed.

Lemma remaining_advance f n :
  remaining (set_position f (position f + n)) = skipn n (remaining f).
Proof.
  unfold remaining; simpl. rewrite skipn_skipn. f_equal. lia.
Qed.

(** ** Tag blocks that end early *)

Lemma allocatable_range env n :
  allocatable env n = true -> 0 <= n <= PTRDIFF_MAX /\ n <= max_alloc env.
Proof.
  unfold allocatable. rewrite !andb_true_iff, !Z.leb_le. lia.
Qed.

Lemma firstn_store_u64 o v (tail : list byte) :
  firstn 8 (store_u64 o v ++ tail) = store_u64 o v.
Proof.
  rewrite <- (store_u64_length o v) at 1.
  now rewrite firstn_app, Nat.sub_diag, firstn_all, app_nil_r.
Qed.

Lemma skipn_store_u64 o v (tail : list byte) :
  skipn 8 (store_u64 o v ++ tail) = tail.
Proof.
  rewrite <- (store_u64_length o v) at 1.
  now rewrite skipn_app, skipn_all, Nat.sub_diag.
Qed.

Lemma readTadTagList_truncated env f tl :
  truncated_tag_block env (remaining f) ->
  exists f', readTadTagList env f tl = Returns (ErrorSysErrno, tl, f').
Proof.
  intros (n & tail & Hbytes & Halloc & Hshort).
  pose proof (allocatable_range env n Halloc) as [Hn _].
  unfold readTadTagList.
  rewrite fread_complete
    by (try lia; rewrite Hbytes, length_app, store_u64_length; simpl; lia).
  rewrite Z.eqb_refl. cbn [negb].
  change (Z.to_nat 8) with 8%nat.
  rewrite Hbytes, firstn_store_u64.
  rewrite load_store_u64 by (unfold SIZE_MAX, PTRDIFF_MAX in *; lia).
  destruct (n >? SIZE_MAX) eqn:Hbig.
  { unfold SIZE_MAX, PTRDIFF_MAX in *. lia. }
  rewrite Halloc. cbn [negb].
  destruct (fread n 1 _) as [[r data] f1] eqn:Hr.
  pose proof (fread_short n (set_position f (position f + 8))) as Hs.
  rewrite Hr in Hs. cbn [fst] in Hs.
  destruct (r =? 1) eqn:Hr1.
  - apply Z.eqb_eq in Hr1. exfalso. apply Hs; [|exact Hr1].
    rewrite remaining_advance, Hbytes, skipn_store_u64. lia.
  - cbn [negb]. eexists. reflexivity.
Qed.

(** ** Runs of tag blocks *)

Lemma readTadTagLists_app env (l1 : list TagList) : forall f l2 r1 f1,
  readTadTagLists env f l1 = Returns (ErrorNone, r1, f1) ->
  readTadTagLists env f (l1 ++ l2)
  = match readTadTagLists env f1 l2 with
    | Aborts why => Aborts why
    | Returns (e, r2, f2) => Returns (e, r1 ++ r2, f2)
    end.
Proof.
  induction l1 as [|tl l1 IH]; intros f l2 r1 f1; cbn [readTadTagLists app].
  - intros H; injection H as <- <-.
    destruct (readTadTagLists env f l2) as [[[e r2] f2]|]; reflexivity.
  - destruct (readTadTagList env f tl) as [[[e tl'] f']|]; [|discriminate].
    destruct e; cbn [Error_eqb negb]; try (intros H; discriminate H).
    destruct (readTadTagLists env f' l1) as [[[e r] f'']|] eqn:Hrest; [|discriminate].
    intros H; injection H as -> <- <-.
    rewrite (IH f' l2 r f'' Hrest).
    destruct (readTadTagLists env f'' l2) as [[[e r2] f2]|]; reflexivity.
Qed.

Lemma readTadTagLists_length env (l : list TagList) : forall f e r f',
  readTadTagLists env f l = Returns (e, r, f') -> length r = length l.
Proof.
  induction l as [|tl l IH]; intros f e r f'; cbn [readTadTagLists].
  - intros H; injection H as <- <- <-. reflexivity.
  - destruct (readTadTagList env f tl) as [[[e1 tl'] f1]|]; [|discriminate].
    destruct (negb (Error_eqb e1 ErrorNone)).
    + intros H; injection H as <- <- <-. reflexivity.
    + destruct (readTadTagLists env f1 l) as [[[e2 r2] f2]|] eqn:Hrest; [|discriminate].
      intros H; injection H as <- <- <-. simpl. f_equal. eapply IH; eauto.
Qed.

(** A run of blocks that decode, followed by a block that ends early. *)
Lemma readTadTagLists_truncated env l1 tl l2 f r1 f1 :
  readTadTagLists env f l1 = Returns (ErrorNone, r1, f1) ->
  truncated_tag_block env (remaining f1) ->
  exists r f', readTadTagLists env f (l1 ++ tl :: l2) = Returns (ErrorSysErrno, r, f').
Proof.
  intros Hrun Hcut. rewrite (readTadTagLists_app _ _ _ _ _ _ Hrun).
  cbn [readTadTagLists].
  destruct (readTadTagList_truncated env f1 tl Hcut) as [f' ->].
  cbn [Error_eqb negb]. eauto.
Qed.

Lemma readTadTagLists_app_inv env (l1 : list TagList) : forall f l2 r f3,
  readTadTagLists env f (l1 ++ l2) = Returns (ErrorNone, r, f3) ->
  exists r1 f1 r2,
    readTadTagLists env f l1 = Returns (ErrorNone, r1, f1)
    /\ readTadTagLists env f1 l2 = Returns (ErrorNone, r2, f3).
Proof.
  induction l1 as [|tl l1 IH]; intros f l2 r f3; cbn [readTadTagLists app].
  - intros H. exists [], f, r. split; [reflexivity | exact H].
  - destruct (readTadTagList env f tl) as [[[e tl'] f']|]; [|discriminate].
    destruct e; cbn [Error_eqb negb]; try (intros H; discriminate H).
    destruct (readTadTagLists env f' (l1 ++ l2)) as [[[e r'] f'']|] eqn:Hrest;
      [|discriminate].
    intros H; injection H as -> <- <-.
    destruct (IH _ _ _ _ Hrest) as (r1 & f1 & r2 & H1 & H2).
    rewrite H1. exists (tl' :: r1), f1, r2. split; [reflexivity | exact H2].
Qed.

(** ** Records *)

Lemma repeat_split {A} (x : A) i n :
  (i < n)%nat -> repeat x n = repeat x i ++ x :: repeat x (n - i - 1).
Proof.
  intros Hi. replace n with (i + S (n - i - 1))%nat at 1 by lia.
  now rewrite repeat_app.
Qed.

Lemma ArrayContainer_new_tags env dims comps type a :
  ArrayContainer_new env dims comps type = Some a ->
  globalTagList a = []
  /\ componentTagLists a = repeat [] (length (componentTagLists a))
  /\ dimensionTagLists a = repeat [] (length (dimensionTagLists a)).
Proof.
  unfold ArrayContainer_new. destruct (_ && _); [|discriminate].
  intros H; injection H as <-. simpl. now rewrite !repeat_length.
Qed.

Lemma readTadPreamble_tags env f a f2 :
  readTadPreamble env f = Some (a, f2) ->
  globalTagList a = []
  /\ componentTagLists a = repeat [] (length (componentTagLists a))
  /\ dimensionTagLists a = repeat [] (length (dimensionTagLists a)).
Proof.
  unfold readTadPreamble.
  destruct (fread (5 + 2 * 8) 1 f) as [[r start] f1].
  destruct (negb (r =? 1)); [discriminate|].
  destruct (_ || _); [discriminate|].
  destruct (negb (allocatable _ _)); [discriminate|].
  destruct (fread 8 _ f1) as [[r' raw] f1'].
  destruct (negb (r' =? _)); [discriminate|].
  destruct (ArrayContainer_new _ _ _ _) as [a'|] eqn:Hnew; [|discriminate].
  intros H; injection H as <- <-. eapply ArrayContainer_new_tags; eauto.
Qed.

(** After a sound fixed part, [readTadHeader] is the reading of the tag
    blocks. *)
Lemma readTadHeader_after_preamble env f caller a f2 :
  readTadPreamble env f = Some (a, f2) ->
  readTadHeader env f caller
  = match readTadTagList env f2 (globalTagList a) with
    | Aborts why => Aborts why
    | Returns (e, tl, f) =>
        let a := set_globalTagList a tl in
        if negb (Error_eqb e ErrorNone) then Returns (e, a, f)
        else
          match readTadTagLists env f (componentTagLists a) with
          | Aborts why => Aborts why
          | Returns (e, tls, f) =>
              let a := set_componentTagLists a tls in
              if negb (Error_eqb e ErrorNone) then Returns (e, a, f)
              else
                match readTadTagLists env f (dimensionTagLists a) with
                | Aborts why => Aborts why
                | Returns (e, tls, f) => Returns (e, set_dimensionTagLists a tls, f)
                end
          end
    end.
Proof.
  unfold readTadPreamble, readTadHeader.
  destruct (fread (5 + 2 * 8) 1 f) as [[r start] f1].
  destruct (negb (r =? 1)); [discriminate|].
  destruct (_ || _); [discriminate|].
  destruct (negb (allocatable _ _)); [discriminate|].
  destruct (fread 8 _ f1) as [[r' raw] f1'].
  destruct (negb (r' =? _)); [discriminate|].
  destruct (ArrayContainer_new _ _ _ _) as [a'|]; [|discriminate].
  intros H; injection H as <- <-. reflexivity.
Qed.

Lemma readTadHeader_truncated_block env f caller a f2 k tls f3 :
  readTadPreamble env f = Some (a, f2) ->
  (k < tagBlockCount a)%nat ->
  readTadTagLists env f2 (repeat [] k) = Returns (ErrorNone, tls, f3) ->
  truncated_tag_block env (remaining f3) ->
  exists a' f', readTadHeader env f caller = Returns (ErrorSysErrno, a', f').
Proof.
  intros Hpre Hk Hrun Hcut.
  rewrite (readTadHeader_after_preamble _ _ _ _ _ Hpre).
  destruct (readTadPreamble_tags _ _ _ _ Hpre) as (Hg & Hc & Hd).
  unfold tagBlockCount in Hk.
  set (cc := length (componentTagLists a)) in *.
  set (dd := length (dimensionTagLists a)) in *.
  rewrite Hg.
  destruct k as [|j].
  - (* the global block *)
    injection Hrun as <- <-.
    destruct (readTadTagList_truncated env f2 [] Hcut) as [f' ->].
    cbn [Error_eqb negb]. eauto.
  - cbn [repeat readTadTagLists] in Hrun.
    destruct (readTadTagList env f2 []) as [[[e g] fa]|]; [|discriminate].
    destruct e; cbn [Error_eqb negb] in *; try discriminate.
    destruct (readTadTagLists env fa (repeat [] j)) as [[[e r] fb]|] eqn:Hj;
      [|discriminate].
    injection Hrun as -> <- <-.
    cbv zeta. cbn [componentTagLists set_globalTagList].
    destruct (Nat.lt_ge_cases j cc) as [Hlt | Hge].
    + (* a component block *)
      rewrite Hc. fold cc.
      rewrite (repeat_split (@nil (str * str)) j cc) by lia.
      destruct (readTadTagLists_truncated env _ [] (repeat [] (cc - j - 1)) _ _ _ Hj Hcut)
        as (r' & f' & Hr).
      unfold TagList in *. rewrite Hr.
      cbn [Error_eqb negb]. eauto.
    + (* a dimension block *)
      replace j with (cc + (j - cc))%nat in Hj by lia.
      rewrite repeat_app in Hj.
      apply readTadTagLists_app_inv in Hj as (r1 & f1 & r2 & Hcomps & Hdims).
      rewrite Hc. fold cc. rewrite Hcomps. cbn [Error_eqb negb].
      cbn [dimensionTagLists set_componentTagLists set_globalTagList].
      rewrite Hd. fold dd.
      rewrite (repeat_split (@nil (str * str)) (j - cc) dd) by lia.
      destruct (readTadTagLists_truncated env _ []
                  (repeat [] (dd - (j - cc) - 1)) _ _ _ Hdims Hcut)
        as (r' & f' & Hr).
      unfold TagList in *. rewrite Hr. eauto.
Qed.

Lemma byte_unsigned_eqb (b c : byte) :
  b <> c -> (byte.unsigned b =? byte.unsigned c) = false.
Proof.
  intros Hne. apply Z.eqb_neq. intros H. apply Hne. now apply byte.unsigned_inj.
Qed.

Ltac differs H c v :=
  let E := fresh in
  pose proof (byte_unsigned_eqb _ c H) as E;
  change (byte.unsigned c) with v in E; rewrite E; reflexivity.

Lemma readTadHeader_damaged env f caller :
  damaged_preamble (remaining f) ->
  readTadHeader env f caller
  = Returns (ErrorInvalidData, caller, set_position f (position f + 21)).
Proof.
  intros [Hlen Hbad]. unfold readTadHeader.
  change (5 + 2 * 8) with 21.
  rewrite fread_complete by (try lia; exact Hlen).
  rewrite Z.eqb_refl. cbn [negb]. change (Z.to_nat 21) with 21%nat.
  rewrite !nth_firstn. cbn [Nat.ltb Nat.leb].
  match goal with
  | |- (if ?c then _ else _) = _ => assert (Hc : c = true); [|now rewrite Hc]
  end.
  rewrite !orb_true_iff.
  destruct Hbad as [H | [H | [H | [H | H]]]].
  - do 6 left. differs H Byte.x54 84.
  - do 5 left; right. differs H Byte.x41 65.
  - do 4 left; right. differs H Byte.x44 68.
  - do 3 left; right. differs H Byte.x00 0.
  - do 2 left; right. apply Z.gtb_lt. lia.
Qed.

Lemma readArray_sequential env st error :
  readArray env st error (-1) = readArray_body env st error.
Proof. reflexivity. Qed.

(** C5, amended: when the stream holds a complete 21-byte preamble whose
    magic bytes are altered, whose reserved byte is not zero or whose type
    code is 16 or more, reading the record yields [ErrorInvalidData]; when
    the fixed part of the record is sound and a tag block, behind [k] tag
    blocks that decode, announces a length the host can allocate but that
    reaches past the bytes that are left, reading the record yields
    [ErrorSysErrno]. In both cases the caller gets the default-constructed
    container, not a partly filled one. *)
Theorem damaged_record_rejected env st f error :
  _f st = Some f ->
  (damaged_preamble (remaining f) ->
   readArray env st error (-1)
   = Returns (ArrayContainer_default env, ErrorInvalidData,
              with_file st (set_position f (position f + 21))))
  /\ (forall a f2 k tls f3,
         readTadPreamble env f = Some (a, f2) ->
         (k < tagBlockCount a)%nat ->
         readTadTagLists env f2 (repeat [] k) = Returns (ErrorNone, tls, f3) ->
         truncated_tag_block env (remaining f3) ->
         exists st',
           readArray env st error (-1)
           = Returns (ArrayContainer_default env, ErrorSysErrno, st')).
Proof.
  intros Hf. rewrite readArray_sequential. unfold readArray_body. rewrite Hf.
  split.
  - intros Hbad. rewrite (readTadHeader_damaged _ _ _ Hbad). reflexivity.
  - intros a f2 k tls f3 Hpre Hk Hrun Hcut.
    destruct (readTadHeader_truncated_block env f (ArrayContainer_default env)
                a f2 k tls f3 Hpre Hk Hrun Hcut) as (a' & f' & ->).
    cbn [Error_eqb negb]. eauto.
Qed.

Lemma truncated_record_tag_block :
  truncated_tag_block host (skipn 21 truncated_record).
Proof.
  exists 100, (text "abc"). split; [reflexivity|]. split; [reflexivity|]. simpl. lia.
Qed.

Lemma damaged_record_rejected_witness :
  (readArray host (reader_on (file_holding damaged_record)) ErrorNone (-1)
   = Returns (ArrayContainer_default host, ErrorInvalidData,
              with_file (reader_on (file_holding damaged_record))
                (mkFILE damaged_record 21 true 65536)))
  /\ (exists st',
         readArray host (reader_on (file_holding truncated_record)) ErrorNone (-1)
         = Returns (ArrayContainer_default host, ErrorSysErrno, st')).
Proof.
  split.
  - apply (proj1 (damaged_record_rejected host
                    (reader_on (file_holding damaged_record))
                    (mkFILE damaged_record 0 true 65536) ErrorNone eq_refl)).
    split; [vm_compute; lia|]. left. discriminate.
  - apply (proj2 (damaged_record_rejected host
                    (reader_on (file_holding truncated_record))
                    (mkFILE truncated_record 0 true 65536) ErrorNone eq_refl)
             (mkArray [] 0 1 [] [] [] [])
             (mkFILE truncated_record 21 true 65536) 0%nat []
             (mkFILE truncated_record 21 true 65536)).
    + vm_compute. reflexivity.
    + vm_compute. lia.
    + reflexivity.
    + exact truncated_record_tag_block.
Defined.

(** C5, as stated, fails: a tag block that announces 100 bytes and holds 3
    makes the read end with [ErrorSysErrno], the code of a short [fread],
    and not with [ErrorInvalidData]. *)
Lemma truncated_tag_block_is_system_error :
  truncated_tag_block host (skipn 21 truncated_record)
  /\ result_of (readArray host (reader_on (file_holding truncated_record))
                  ErrorNone (-1))
     = Some (ArrayContainer_default host, ErrorSysErrno)
  /\ ErrorSysErrno <> ErrorInvalidData.
Proof.
  split; [exact truncated_record_tag_block|].
  split; [vm_compute; reflexivity | discriminate].
Qed.

(** ** Strings *)

Lemma byte_unsigned_range (b : byte) : 0 <= byte.unsigned b < 256.
Proof. destruct b; vm_compute; split; congruence. Qed.

Lemma char_value_zero (b : byte) : char_value b = 0 <-> b = Byte.x00.
Proof.
  split.
  - intros H. apply byte.unsigned_inj. change (byte.unsigned Byte.x00) with 0.
    unfold char_value in H. pose proof (byte_unsigned_range b).
    destruct (byte.unsigned b <? 128) eqn:E; [exact H|].
    apply Z.ltb_ge in E. lia.
  - intros ->. reflexivity.
Qed.

Lemma char_value_printable (b : byte) :
  (char_value b =? 0) = false ->
  ((char_value b <? 32) || (char_value b =? 127)) = false <-> printable b.
Proof.
  unfold printable, char_value. pose proof (byte_unsigned_range b) as Hb.
  intros Hz. rewrite orb_false_iff, Z.ltb_ge, Z.eqb_neq.
  destruct (byte.unsigned b <? 128) eqn:E;
    [apply Z.ltb_lt in E | apply Z.ltb_ge in E]; lia.
Qed.

Lemma readString_scan_break data : forall i j,
  readString_scan data i = ScanBreak j ->
  exists s rest,
    data = s ++ Byte.x00 :: rest
    /\ Forall printable s
    /\ c_string data = s
    /\ j = (i + length s + 1)%nat.
Proof.
  induction data as [|c data IH]; intros i j; cbn [readString_scan c_string].
  - discriminate.
  - destruct (char_value c =? 0) eqn:Hz.
    + intros H; injection H as <-. apply Z.eqb_eq, char_value_zero in Hz; subst c.
      exists [], data. repeat split; [constructor | simpl; lia].
    + destruct (_ || _) eqn:Hp; [discriminate|].
      apply (char_value_printable c Hz) in Hp.
      intros H. apply IH in H as (s & rest & -> & Hs & Hc & ->).
      exists (c :: s), rest. rewrite Hc.
      repeat split; [constructor; assumption | simpl; lia].
Qed.

Lemma readString_accepted data s len :
  readString data = StringOk s len ->
  (exists rest, data = s ++ Byte.x00 :: rest)
  /\ Forall printable s
  /\ len = S (length s).
Proof.
  unfold readString.
  destruct (readString_scan data 0) as [j| |] eqn:Hscan; try discriminate.
  intros H; injection H as <- <-.
  apply readString_scan_break in Hscan as (s & rest & Hd & Hs & Hc & ->).
  rewrite Hc. repeat split; [eauto | assumption | lia].
Qed.

Lemma readString_scan_rejects pre b rest : forall i,
  Forall printable pre -> b <> Byte.x00 -> ~ printable b ->
  readString_scan (pre ++ b :: rest) i = ScanReject.
Proof.
  induction pre as [|c pre IH]; intros i Hpre Hb Hnp; cbn [app readString_scan].
  - destruct (char_value b =? 0) eqn:Hz.
    + apply Z.eqb_eq, char_value_zero in Hz. contradiction.
    + destruct (_ || _) eqn:Hp; [reflexivity|].
      apply (char_value_printable b Hz) in Hp. contradiction.
  - inversion Hpre as [|? ? Hc Hpre']; subst.
    destruct (char_value c =? 0) eqn:Hz.
    + apply Z.eqb_eq, char_value_zero in Hz; subst c.
      unfold printable in Hc. change (byte.unsigned Byte.x00) with 0 in Hc. lia.
    + apply (char_value_printable c Hz) in Hc. rewrite Hc. now apply IH.
Qed.

Lemma readString_scan_overrun data : forall i,
  Forall printable data -> readString_scan data i = ScanOverrun.
Proof.
  induction data as [|c data IH]; intros i Hall; cbn [readString_scan].
  - reflexivity.
  - inversion Hall as [|? ? Hc Hall']; subst.
    destruct (char_value c =? 0) eqn:Hz.
    + apply Z.eqb_eq, char_value_zero in Hz; subst c.
      unfold printable in Hc. change (byte.unsigned Byte.x00) with 0 in Hc. lia.
    + apply (char_value_printable c Hz) in Hc. rewrite Hc. now apply IH.
Qed.

(** [readString] accepts a string exactly when every byte before its
    terminator is printable ASCII: control bytes, 127 and, [char] being
    signed, every byte from 128 on make it return [false]; a string with no
    terminator in the buffer makes it read past the end. [len] counts the
    terminator in. *)
Theorem readString_accepts_printable_only :
  (forall data s len,
      readString data = StringOk s len ->
      (exists rest, data = s ++ Byte.x00 :: rest)
      /\ Forall printable s /\ len = S (length s))
  /\ (forall pre b rest,
         Forall printable pre -> b <> Byte.x00 -> ~ printable b ->
         readString (pre ++ b :: rest) = StringBad)
  /\ (forall data, Forall printable data -> readString data = StringOverrun).
Proof.
  split; [exact readString_accepted|]. split.
  - intros pre b rest Hpre Hb Hnp. unfold readString.
    now rewrite readString_scan_rejects.
  - intros data Hall. unfold readString. now rewrite readString_scan_overrun.
Qed.

(** ** The tag loop always ends *)

Lemma readString_length data s len :
  readString data = StringOk s len -> (1 <= len <= length data)%nat.
Proof.
  intros H. apply readString_accepted in H as ((rest & ->) & _ & ->).
  rewrite length_app. simpl. lia.
Qed.

Lemma readTadTags_fuel fuel : forall data i tl,
  (length data - i <= fuel)%nat ->
  readTadTags fuel data i tl <> Aborts NoFuel.
Proof.
  induction fuel as [|fuel IH]; intros data i tl Hfuel.
  - cbn [readTadTags]. destruct (i <? length data)%nat eqn:Hi; [|discriminate].
    apply Nat.ltb_lt in Hi. lia.
  - cbn [readTadTags]. destruct (i <? length data)%nat eqn:Hi; [|discriminate].
    apply Nat.ltb_lt in Hi.
    destruct (readString (skipn i data)) as [key keyLen| |] eqn:Hk; try discriminate.
    destruct (length data <=? i + keyLen + 1)%nat; [discriminate|].
    destruct (readString (skipn (i + keyLen + 1) data)) as [value valueLen| |];
      try discriminate.
    apply IH. lia.
Qed.

(** [readTadTagList] never exhausts the iteration bound of the embedding. *)
Lemma readTadTagList_total env f tl :
  readTadTagList env f tl <> Aborts NoFuel.
Proof.
  unfold readTadTagList.
  destruct (fread 8 1 f) as [[r raw] f1].
  destruct (negb (r =? 1)); [discriminate|].
  destruct (_ >? SIZE_MAX); [discriminate|].
  destruct (negb (allocatable _ _)); [discriminate|].
  destruct (fread _ 1 f1) as [[r' data] f2].
  destruct (negb (r' =? 1)); [discriminate|].
  destruct (readTadTags _ _ _ _) as [[e tl']|why] eqn:Hloop; [discriminate|].
  intros H; injection H as ->. revert Hloop. apply readTadTags_fuel. lia.
Qed.

Lemma TagList_set_printable key value tl :
  Forall printable key -> Forall printable value -> printable_tags tl ->
  printable_tags (TagList_set key value tl).
Proof.
  intros Hk Hv. unfold printable_tags.
  induction tl as [|[k v] tl IH]; intros Htl; cbn [TagList_set].
  - repeat constructor; assumption.
  - inversion Htl as [|? ? [Hk0 Hv0] Htl']; subst; simpl in *.
    destruct (str_eqb k key).
    + constructor; [split; assumption | assumption].
    + constructor; [split; assumption | now apply IH].
Qed.

(** Whatever [readTadTagList] stores in a tag list is printable ASCII. *)
Lemma readTadTags_printable fuel : forall data i tl e tl',
  readTadTags fuel data i tl = Returns (e, tl') ->
  printable_tags tl -> printable_tags tl'.
Proof.
  induction fuel as [|fuel IH]; intros data i tl e tl'; cbn [readTadTags].
  - destruct (i <? length data)%nat; [discriminate|].
    intros H; injection H as <- <-. auto.
  - destruct (i <? length data)%nat; [|intros H; injection H as <- <-; auto].
    destruct (readString (skipn i data)) as [key keyLen| |] eqn:Hk;
      try discriminate; [|intros H; injection H as <- <-; auto].
    destruct (length data <=? i + keyLen + 1)%nat;
      [intros H; injection H as <- <-; auto|].
    destruct (readString (skipn (i + keyLen + 1) data)) as [value valueLen| |] eqn:Hv;
      try discriminate; [|intros H; injection H as <- <-; auto].
    intros H Htl. apply (IH _ _ _ _ _ H).
    apply readString_accepted in Hk as (_ & Hk & _).
    apply readString_accepted in Hv as (_ & Hv & _).
    now apply TagList_set_printable.
Qed.

(** ** What the tag loop makes of a written tag *)

Lemma printable_not_zero c : printable c -> (char_value c =? 0) = false.
Proof.
  intros Hc. apply Z.eqb_neq. intros Hz. apply char_value_zero in Hz; subst c.
  unfold printable in Hc. change (byte.unsigned Byte.x00) with 0 in Hc. lia.
Qed.

Lemma readString_scan_terminated s rest : forall i,
  Forall printable s ->
  readString_scan (s ++ Byte.x00 :: rest) i = ScanBreak (i + length s + 1).
Proof.
  induction s as [|c s IH]; intros i Hs; cbn [app readString_scan].
  - change (char_value Byte.x00 =? 0) with true. cbv iota. f_equal. simpl. lia.
  - inversion Hs as [|? ? Hc Hs']; subst.
    pose proof (printable_not_zero c Hc) as Hz. rewrite Hz.
    apply (char_value_printable c Hz) in Hc. rewrite Hc.
    rewrite IH by assumption. f_equal. simpl. lia.
Qed.

Lemma c_string_terminated s rest :
  Forall printable s -> c_string (s ++ Byte.x00 :: rest) = s.
Proof.
  induction 1 as [|c s Hc Hs IH]; cbn [app c_string].
  - reflexivity.
  - rewrite (printable_not_zero c Hc), IH. reflexivity.
Qed.

Lemma readString_terminated s rest :
  Forall printable s ->
  readString (s ++ Byte.x00 :: rest) = StringOk s (S (length s)).
Proof.
  intros Hs. unfold readString.
  rewrite readString_scan_terminated, c_string_terminated by assumption.
  f_equal. lia.
Qed.

(** The tag loop on the payload the writer emits for one tag: the byte
    behind the terminator of the key, the first byte of the value, is
    stepped over unread, whatever it is. *)
Lemma readTadTags_written_tag key c value fuel :
  Forall printable key -> Forall printable value -> (0 < fuel)%nat ->
  readTadTags fuel (tag_payload [(key, c :: value)]) 0 []
  = Returns (ErrorNone, [(key, value)]).
Proof.
  intros Hk Hv Hfuel. destruct fuel as [|fuel]; [lia|].
  unfold tag_payload. cbn [flat_map fst snd]. rewrite app_nil_r.
  set (payload := key ++ [Byte.x00] ++ (c :: value) ++ [Byte.x00]).
  assert (Hlen : length payload = (length key + length value + 3)%nat).
  { subst payload. rewrite ?length_app; simpl; rewrite ?length_app; simpl; lia. }
  cbn [readTadTags].
  replace (0 <? length payload)%nat with true
    by (symmetry; apply Nat.ltb_lt; lia).
  cbn [skipn].
  assert (Hkey : readString payload = StringOk key (S (length key))).
  { subst payload. cbn [app]. now apply readString_terminated. }
  rewrite Hkey.
  replace (length payload <=? 0 + S (length key) + 1)%nat with false
    by (symmetry; apply Nat.leb_gt; lia).
  assert (Hval : skipn (0 + S (length key) + 1) payload = value ++ [Byte.x00]).
  { subst payload. replace (0 + S (length key) + 1)%nat with (length key + 2)%nat by lia.
    rewrite skipn_app, skipn_all2 by lia.
    replace (length key + 2 - length key)%nat with 2%nat by lia. reflexivity. }
  rewrite Hval, readString_terminated by assumption.
  cbn [TagList_set].
  destruct fuel as [|fuel]; cbn [readTadTags];
    replace (_ <? length payload)%nat with false
      by (symmetry; apply Nat.ltb_ge; lia); reflexivity.
Qed.

Lemma fread_chunk f (pre chunk post : list byte) size :
  contents f = pre ++ chunk ++ post ->
  position f = length pre ->
  size = Z.of_nat (length chunk) ->
  0 < size ->
  fread size 1 f = (1, chunk, set_position f (length pre + length chunk)).
Proof.
  intros Hc Hp -> Hlen.
  assert (Hrem : remaining f = chunk ++ post).
  { unfold remaining. rewrite Hc, Hp, skipn_app, skipn_all, Nat.sub_diag.
    reflexivity. }
  rewrite fread_complete by (rewrite ?Hrem, ?length_app; lia).
  rewrite Hrem, Nat2Z.id, firstn_app, Nat.sub_diag, firstn_all, app_nil_r, Hp.
  reflexivity.
Qed.

(** Whatever the first byte [c] of a value is, a control byte and a byte
    from 128 on included, the tag block the writer emits for the tag
    [(key, c :: value)] decodes without error to the tag [(key, value)]. *)
Theorem written_tag_loses_first_value_byte env key c value :
  Forall printable key -> Forall printable value ->
  allocatable env (Z.of_nat (length key + length value + 3)) = true ->
  exists f,
    decode_tag_block env (tag_block (byte_order env) [(key, c :: value)])
    = Returns (ErrorNone, [(key, value)], f).
Proof.
  intros Hk Hv Halloc.
  pose proof (allocatable_range env _ Halloc) as [Hn _].
  assert (Hlen : length (tag_payload [(key, c :: value)])
                 = (length key + length value + 3)%nat).
  { unfold tag_payload. cbn [flat_map fst snd].
    rewrite app_nil_r, ?length_app; simpl; rewrite ?length_app; simpl; lia. }
  unfold decode_tag_block, readTadTagList, tag_block.
  set (payload := tag_payload [(key, c :: value)]) in *.
  set (n := Z.of_nat (length payload)).
  set (f := mkFILE _ _ _ _).
  rewrite (fread_chunk f [] (store_u64 (byte_order env) n) payload 8)
    by (try reflexivity; rewrite ?store_u64_length; lia).
  rewrite Z.eqb_refl. cbn [negb].
  rewrite load_store_u64 by (subst n; unfold SIZE_MAX, PTRDIFF_MAX in *; lia).
  destruct (n >? SIZE_MAX) eqn:Hbig.
  { apply Z.gtb_lt in Hbig. subst n. unfold SIZE_MAX, PTRDIFF_MAX in *. lia. }
  assert (Halloc' : allocatable env n = true) by (subst n; now rewrite Hlen).
  rewrite Halloc'. cbn [negb].
  rewrite (fread_chunk _ (store_u64 (byte_order env) n) payload [] n)
    by (cbn [contents set_position position length];
        rewrite ?app_nil_r, ?store_u64_length; try reflexivity; lia).
  rewrite Z.eqb_refl. cbn [negb].
  subst payload. rewrite readTadTags_written_tag by (assumption || lia).
  eauto.
Qed.

(** ** Reading leaves the medium alone *)

Lemma same_medium_refl f : same_medium f f.
Proof. repeat split. Qed.

Lemma same_medium_trans f g h : same_medium f g -> same_medium g h -> same_medium f h.
Proof. unfold same_medium. intros (-> & -> & ->) (-> & -> & ->). auto. Qed.

Lemma fread_frame size nmemb f r got f' :
  fread size nmemb f = (r, got, f') ->
  same_medium f f' /\ position f' = (position f + length got)%nat.
Proof.
  unfold fread. destruct (size * nmemb =? 0).
  - intros H; injection H as <- <- <-. split; [apply same_medium_refl | simpl; lia].
  - intros H; injection H as <- <- <-. split; [repeat split | reflexivity].
Qed.

Lemma fread_one size f got f' :
  fread size 1 f = (1, got, f') -> 0 < size /\ length got = Z.to_nat size.
Proof.
  unfold fread. rewrite Z.mul_1_r. destruct (size =? 0) eqn:Hz.
  - discriminate.
  - apply Z.eqb_neq in Hz. intros H; injection H as Hr <- <-.
    set (got := firstn _ _) in *.
    assert (Hle : (length got <= Z.to_nat size)%nat)
      by (subst got; rewrite length_firstn; lia).
    destruct (Z.lt_trichotomy size 0) as [Hneg | [H0 | Hpos]]; [|lia|].
    + replace (Z.to_nat size) with 0%nat in Hle by lia.
      replace (length got) with 0%nat in Hr by lia.
      rewrite Z.div_0_l in Hr by lia. discriminate.
    + split; [lia|].
      assert (Z.of_nat (length got) = size); [|lia].
      assert (Hq : Z.of_nat (length got) / size = 1) by exact Hr.
      pose proof (Z.div_lt_upper_bound (Z.of_nat (length got)) size 1) as Hub.
      destruct (Z.eq_dec (Z.of_nat (length got)) size) as [|Hne]; [assumption|].
      rewrite Z.div_small in Hq by lia. discriminate.
Qed.

Ltac inv H := inversion H; subst; clear H.

Lemma readTadTagList_frame env f tl e tl' f' :
  readTadTagList env f tl = Returns (e, tl', f') ->
  same_medium f f'
  /\ (position f <= position f')%nat
  /\ (e = ErrorNone -> (position f + 8 < position f')%nat).
Proof.
  unfold readTadTagList.
  destruct (fread 8 1 f) as [[r raw] f1] eqn:H1.
  pose proof (fread_frame _ _ _ _ _ _ H1) as [Hm1 Hp1].
  destruct (r =? 1) eqn:Hr; cbn [negb].
  2:{ intros H; inv H. repeat split; try apply Hm1; try lia. discriminate. }
  apply Z.eqb_eq in Hr; subst r. apply fread_one in H1 as [_ Hl1].
  destruct (_ >? SIZE_MAX).
  { intros H; inv H. repeat split; try apply Hm1; try lia. discriminate. }
  destruct (negb (allocatable _ _)); [discriminate|].
  destruct (fread _ 1 f1) as [[r' data] f2] eqn:H2.
  pose proof (fread_frame _ _ _ _ _ _ H2) as [Hm2 Hp2].
  pose proof (same_medium_trans _ _ _ Hm1 Hm2) as Hm.
  destruct (r' =? 1) eqn:Hr'; cbn [negb].
  2:{ intros H; inv H. repeat split; try apply Hm; try lia. discriminate. }
  apply Z.eqb_eq in Hr'; subst r'. apply fread_one in H2 as [Hn Hl2].
  destruct (readTadTags _ _ _ _) as [[e1 tl1]|]; [|discriminate].
  intros H; inv H. change (Z.to_nat 8) with 8%nat in Hl1.
  repeat split; try apply Hm; lia.
Qed.

Lemma readTadTagLists_frame env tls : forall f e tls' f',
  readTadTagLists env f tls = Returns (e, tls', f') ->
  same_medium f f' /\ (position f <= position f')%nat.
Proof.
  induction tls as [|tl tls IH]; intros f e tls' f'; cbn [readTadTagLists].
  - intros H; inv H. split; [apply same_medium_refl | lia].
  - destruct (readTadTagList env f tl) as [[[e1 tl1] f1]|] eqn:H1; [|discriminate].
    apply readTadTagList_frame in H1 as (Hm1 & Hp1 & _).
    destruct (negb (Error_eqb e1 ErrorNone)).
    + intros H; inv H. auto.
    + destruct (readTadTagLists env f1 tls) as [[[e2 r2] f2]|] eqn:H2; [|discriminate].
      apply IH in H2 as [Hm2 Hp2]. intros H; inv H.
      split; [eapply same_medium_trans; eauto | lia].
Qed.

Lemma ArrayContainer_new_size env dims comps type a :
  ArrayContainer_new env dims comps type = Some a ->
  allocatable env (dataSize env a) = true.
Proof.
  unfold ArrayContainer_new.
  destruct (allocatable env (dataSizeOf env dims comps type)) eqn:Ha;
    [|discriminate].
  destruct (_ && _); [|discriminate].
  intros H; inv H. exact Ha.
Qed.

Lemma readTadHeader_frame env f caller e a f' :
  readTadHeader env f caller = Returns (e, a, f') ->
  same_medium f f'
  /\ (position f <= position f')%nat
  /\ (e = ErrorNone ->
      (position f + 21 <= position f')%nat
      /\ allocatable env (dataSize env a) = true).
Proof.
  unfold readTadHeader.
  destruct (fread (5 + 2 * 8) 1 f) as [[r start] f1] eqn:H1.
  pose proof (fread_frame _ _ _ _ _ _ H1) as [Hm1 Hp1].
  destruct (r =? 1) eqn:Hr; cbn [negb].
  2:{ intros H; inv H. repeat split; try apply Hm1; try lia; discriminate. }
  apply Z.eqb_eq in Hr; subst r. apply fread_one in H1 as [_ Hl1].
  change (Z.to_nat (5 + 2 * 8)) with 21%nat in Hl1.
  destruct (_ || _).
  { intros H; inv H. repeat split; try apply Hm1; try lia; discriminate. }
  destruct (negb (allocatable _ _)); [discriminate|].
  destruct (fread 8 _ f1) as [[r' raw] f2] eqn:H2.
  pose proof (fread_frame _ _ _ _ _ _ H2) as [Hm2 Hp2].
  pose proof (same_medium_trans _ _ _ Hm1 Hm2) as Hm12.
  destruct (negb (r' =? _)).
  { intros H; inv H. repeat split; try apply Hm12; try lia; discriminate. }
  destruct (ArrayContainer_new _ _ _ _) as [a0|] eqn:Hnew; [|discriminate].
  apply ArrayContainer_new_size in Hnew.
  destruct (readTadTagList env f2 _) as [[[e1 g] f3]|] eqn:H3; [|discriminate].
  apply readTadTagList_frame in H3 as (Hm3 & Hp3 & _).
  pose proof (same_medium_trans _ _ _ Hm12 Hm3) as Hm13.
  destruct (negb (Error_eqb e1 ErrorNone)).
  { intros H; inv H. repeat split; try apply Hm13; try lia; assumption. }
  destruct (readTadTagLists env f3 _) as [[[e2 cs] f4]|] eqn:H4; [|discriminate].
  apply readTadTagLists_frame in H4 as (Hm4 & Hp4).
  pose proof (same_medium_trans _ _ _ Hm13 Hm4) as Hm14.
  destruct (negb (Error_eqb e2 ErrorNone)).
  { intros H; inv H. repeat split; try apply Hm14; try lia; assumption. }
  destruct (readTadTagLists env f4 _) as [[[e3 ds] f5]|] eqn:H5; [|discriminate].
  apply readTadTagLists_frame in H5 as (Hm5 & Hp5).
  pose proof (same_medium_trans _ _ _ Hm14 Hm5) as Hm15.
  intros H; inv H. repeat split; try apply Hm15; try lia; assumption.
Qed.

Lemma peek_true f : peek f = true -> (position f < length (contents f))%nat.
Proof.
  unfold peek, remaining. intros H.
  destruct (Nat.lt_ge_cases (position f) (length (contents f))) as [|Hge];
    [assumption|].
  rewrite skipn_all2 in H by exact Hge. discriminate.
Qed.

Lemma to_off_t_small n : 0 <= n <= PTRDIFF_MAX -> to_off_t n = n.
Proof.
  intros Hn. unfold to_off_t, PTRDIFF_MAX in *.
  rewrite Z.mod_small by lia. lia.
Qed.

Lemma skipTadData_frame env f a f' :
  allocatable env (dataSize env a) = true ->
  skipTadData env f a = (true, f') ->
  same_medium f f' /\ (position f <= position f')%nat.
Proof.
  intros Ha. apply allocatable_range in Ha as [Hn _].
  unfold skipTadData, fseeko. rewrite to_off_t_small by exact Hn.
  destruct (_ && _).
  - intros H; inv H. split; [repeat split | simpl; lia].
  - discriminate.
Qed.

Lemma fseeko_medium f off whence r f' :
  fseeko f off whence = (r, f') -> same_medium f f'.
Proof.
  unfold fseeko. destruct (_ && _); intros H; inv H; repeat split.
Qed.

Lemma skipTadData_medium env f a ok f' :
  skipTadData env f a = (ok, f') -> same_medium f f'.
Proof.
  unfold skipTadData.
  destruct (fseeko f _ _) as [r f1] eqn:Hs. intros H; inv H.
  eapply fseeko_medium; eauto.
Qed.

(** ** Counting always ends *)

Lemma readTadTagLists_total env tls : forall f,
  readTadTagLists env f tls <> Aborts NoFuel.
Proof.
  induction tls as [|tl tls IH]; intros f; cbn [readTadTagLists].
  - discriminate.
  - destruct (readTadTagList env f tl) as [[[e tl'] f1]|why] eqn:H1.
    + destruct (negb (Error_eqb e ErrorNone)); [discriminate|].
      destruct (readTadTagLists env f1 tls) as [[[e2 r2] f2]|why] eqn:H2;
        [discriminate|].
      intros H; inv H. now apply (IH f1).
    + intros H; inv H. now apply (readTadTagList_total env f tl).
Qed.

Lemma readTadHeader_total env f caller :
  readTadHeader env f caller <> Aborts NoFuel.
Proof.
  unfold readTadHeader.
  destruct (fread (5 + 2 * 8) 1 f) as [[r start] f1].
  destruct (negb (r =? 1)); [discriminate|].
  destruct (_ || _); [discriminate|].
  destruct (negb (allocatable _ _)); [discriminate|].
  destruct (fread 8 _ f1) as [[r' raw] f2].
  destruct (negb (r' =? _)); [discriminate|].
  destruct (ArrayContainer_new _ _ _ _) as [a0|]; [|discriminate].
  destruct (readTadTagList env f2 _) as [[[e1 g] f3]|why] eqn:H3.
  2:{ intros H; inv H. now apply (readTadTagList_total env f2 (globalTagList a0)). }
  destruct (negb (Error_eqb e1 ErrorNone)); [discriminate|].
  destruct (readTadTagLists env f3 _) as [[[e2 cs] f4]|why] eqn:H4.
  2:{ intros H; inv H. eapply readTadTagLists_total; eauto. }
  destruct (negb (Error_eqb e2 ErrorNone)); [discriminate|].
  destruct (readTadTagLists env f4 _) as [[[e3 ds] f5]|why] eqn:H5.
  2:{ intros H; inv H. eapply readTadTagLists_total; eauto. }
  discriminate.
Qed.

Lemma scanArrays_fuel env fuel : forall count f offsets,
  (length (contents f) <= position f + fuel)%nat ->
  scanArrays env fuel count f offsets <> Aborts NoFuel.
Proof.
  induction fuel as [|fuel IH]; intros count f offsets Hfuel; cbn [scanArrays].
  - destruct (peek f) eqn:Hpeek; [|discriminate].
    apply peek_true in Hpeek. lia.
  - destruct (peek f) eqn:Hpeek; [|discriminate].
    destruct (ftello f <? 0); [discriminate|].
    destruct (readTadHeader env f _) as [[[e a] f1]|why] eqn:Hh.
    2:{ intros H; inv H. eapply readTadHeader_total; eauto. }
    apply readTadHeader_frame in Hh as (Hm & Hp & Hok).
    destruct e; cbn [Error_eqb negb]; try discriminate.
    destruct (Hok eq_refl) as [Hp21 Ha].
    destruct (skipTadData env f1 a) as [ok f2] eqn:Hs.
    destruct ok; cbn [negb]; [|discriminate].
    apply (skipTadData_frame _ _ _ _ Ha) in Hs as [Hm2 Hp2].
    destruct (_ && _); [discriminate|].
    apply IH. destruct Hm as (Hc & _), Hm2 as (Hc2 & _).
    rewrite Hc2, Hc. lia.
Qed.

(** How the scan can end: a [return] inside the loop answers -1 and leaves
    either the count it found or -1 behind; falling out of the loop leaves
    the medium as it was. *)
Lemma scanArrays_exit env fuel : forall count f offsets x,
  scanArrays env fuel count f offsets = Returns x ->
  match x with
  | ScanReturn ret st =>
      ret = -1 /\ (_arrayCount st = count \/ _arrayCount st = -1)
  | ScanEnd f' _ => same_medium f f'
  end.
Proof.
  induction fuel as [|fuel IH]; intros count f offsets x; cbn [scanArrays].
  - destruct (peek f); [discriminate|].
    intros H; inv H. apply same_medium_refl.
  - destruct (peek f); [|intros H; inv H; apply same_medium_refl].
    destruct (ftello f <? 0); [intros H; inv H; simpl; auto|].
    destruct (readTadHeader env f _) as [[[e a] f1]|why] eqn:Hh; [|discriminate].
    apply readTadHeader_frame in Hh as (Hm & Hp & Hok).
    destruct (negb (Error_eqb e ErrorNone)); [intros H; inv H; simpl; auto|].
    destruct (skipTadData env f1 a) as [ok f2] eqn:Hs.
    apply skipTadData_medium in Hs as Hm2.
    destruct ok; cbn [negb]; [|intros H; inv H; simpl; auto].
    destruct (_ && _); [intros H; inv H; simpl; auto|].
    intros H. apply IH in H. destruct x; [|exact H].
    eapply same_medium_trans; [|exact H].
    eapply same_medium_trans; eauto.
Qed.

(** [arrayCount] never exhausts the iteration bound of the embedding: the
    scan is given one turn per byte and needs fewer. *)
Theorem arrayCount_total env st : arrayCount env st <> Aborts NoFuel.
Proof.
  unfold arrayCount.
  destruct (_arrayCount st >=? -1); [discriminate|].
  destruct (_f st) as [f|]; [|discriminate].
  destruct (ftello f <? 0); [discriminate|].
  destruct (scanArrays _ _ _ _ _) as [[f1 offsets | ret st']|why] eqn:Hscan.
  - destruct (fseeko f1 _ _) as [r f2]. destruct (r <? 0); discriminate.
  - discriminate.
  - intros H; inv H. revert Hscan. apply scanArrays_fuel. lia.
Qed.

(** ** The count, once known *)

Lemma geb_false x y : x < y -> (x >=? y) = false.
Proof. intros H. rewrite Z.geb_leb. apply Z.leb_gt. exact H. Qed.

(** When [arrayCount] answers a count, that is, not -1, it has left the
    cursor where it found it, the count is cached, and the next call
    answers from the cache, without touching the stream. *)
Theorem arrayCount_restores_and_caches env st n st' :
  arrayCount env st = Returns (n, st') ->
  0 <= n ->
  _arrayCount st' = n
  /\ arrayCount env st' = Returns (n, st')
  /\ (forall f, _f st = Some f ->
        exists f', _f st' = Some f' /\ same_medium f f' /\ position f' = position f).
Proof.
  unfold arrayCount at 1.
  destruct (_arrayCount st >=? -1) eqn:Hcached.
  - intros H Hn; inv H. split; [reflexivity|]. split.
    + unfold arrayCount. now rewrite Hcached.
    + intros f Hf. exists f. split; [assumption|]. split; [apply same_medium_refl | reflexivity].
  - destruct (_f st) as [f|]; [|intros H Hn; inv H; lia].
    unfold ftello. destruct (seekable f) eqn:Hseek; cbn [Z.ltb Z.compare];
      [|intros H Hn; inv H; lia].
    replace (Z.of_nat (position f) <? 0) with false by (symmetry; apply Z.ltb_ge; lia).
    destruct (scanArrays _ _ _ _ _) as [[f1 offsets | ret st1]|why] eqn:Hscan;
      [| |discriminate].
    + apply scanArrays_exit in Hscan.
      destruct (fseeko f1 _ _) as [r f2] eqn:Hseekback.
      destruct (r <? 0) eqn:Hr; [intros H Hn; inv H; lia|].
      intros H Hn; inv H. split; [reflexivity|]. split.
      * unfold arrayCount. cbn [_arrayCount].
        replace (_ >=? -1) with true; [reflexivity|].
        symmetry. apply Z.geb_le. lia.
      * intros f0 Hf0; inv Hf0. exists f2. split; [reflexivity|].
        pose proof (fseeko_medium _ _ _ _ _ Hseekback) as Hm2.
        assert (Hm : same_medium f0 f2).
        { eapply same_medium_trans; [|exact Hm2].
          eapply same_medium_trans; [|exact Hscan].
          unfold rewind. destruct (fseeko f0 0 SEEK_SET) as [r0 f0'] eqn:H0.
          eapply fseeko_medium; eauto. }
        split; [exact Hm|].
        unfold fseeko in Hseekback. destruct (_ && _).
        -- inv Hseekback. simpl. lia.
        -- inv Hseekback. discriminate.
    + apply scanArrays_exit in Hscan as [-> _]. intros H Hn; inv H. lia.
Qed.

(** ** Streams that cannot seek *)

(** On an open stream that cannot seek, whose count was not computed yet,
    [arrayCount] answers -1 and remembers it, and a read by index ends with
    [ErrorSeekingNotSupported]; neither moves the cursor. *)
Theorem pipe_has_no_index env st f :
  _f st = Some f -> seekable f = false -> _arrayCount st < -1 ->
  arrayCount env st = Returns (-1, mkTAD (Some f) (-1) (_arrayOffsets st))
  /\ (forall error i,
         0 <= i ->
         readArray env st error i
         = Returns (ArrayContainer_default env, ErrorSeekingNotSupported,
                    mkTAD (Some f) (-1) (_arrayOffsets st))).
Proof.
  intros Hf Hseek Hcount.
  assert (Hc : arrayCount env st
               = Returns (-1, mkTAD (Some f) (-1) (_arrayOffsets st))).
  { unfold arrayCount. rewrite Hf.
    rewrite (geb_false _ _ Hcount).
    unfold ftello. rewrite Hseek. reflexivity. }
  split; [exact Hc|].
  intros error i Hi. unfold readArray.
  replace (i >=? 0) with true by (symmetry; apply Z.geb_le; lia).
  rewrite Hc. reflexivity.
Qed.

(** ** Reads by index *)

(** A read by index is refused, and nothing is read, when the count is
    unknown ([ErrorSeekingNotSupported]) and when the index is not below the
    count ([ErrorInvalidData]). *)
Theorem readArray_index_checked env st n st' error i :
  arrayCount env st = Returns (n, st') ->
  0 <= i ->
  (n < 0 ->
   readArray env st error i
   = Returns (ArrayContainer_default env, ErrorSeekingNotSupported, st'))
  /\ (0 <= n <= i ->
      readArray env st error i
      = Returns (ArrayContainer_default env, ErrorInvalidData, st')).
Proof.
  intros Hc Hi. unfold readArray.
  replace (i >=? 0) with true by (symmetry; apply Z.geb_le; lia).
  rewrite Hc. split.
  - intros Hn. now replace (n <? 0) with true by (symmetry; apply Z.ltb_lt; lia).
  - intros Hn. replace (n <? 0) with false by (symmetry; apply Z.ltb_ge; lia).
    destruct (arrayCount_restores_and_caches env st n st' Hc) as (_ & -> & _); [lia|].
    now replace (i >=? n) with true by (symmetry; apply Z.geb_le; lia).
Qed.

(** ** Sequential reads need no seeking *)

Lemma fread_as_pipe size nmemb f :
  fread size nmemb (as_pipe f)
  = let '(r, got, f') := fread size nmemb f in (r, got, as_pipe f').
Proof. unfold fread. destruct (size * nmemb =? 0); reflexivity. Qed.

Lemma readTadTagList_as_pipe env f tl :
  readTadTagList env (as_pipe f) tl
  = match readTadTagList env f tl with
    | Returns (e, tl', f') => Returns (e, tl', as_pipe f')
    | Aborts why => Aborts why
    end.
Proof.
  unfold readTadTagList. rewrite fread_as_pipe.
  destruct (fread 8 1 f) as [[r raw] f1].
  destruct (negb (r =? 1)); [reflexivity|].
  destruct (_ >? SIZE_MAX); [reflexivity|].
  destruct (negb (allocatable _ _)); [reflexivity|].
  rewrite fread_as_pipe.
  destruct (fread _ 1 f1) as [[r' data] f2].
  destruct (negb (r' =? 1)); [reflexivity|].
  destruct (readTadTags _ _ _ _) as [[e tl']|]; reflexivity.
Qed.

Lemma readTadTagLists_as_pipe env tls : forall f,
  readTadTagLists env (as_pipe f) tls
  = match readTadTagLists env f tls with
    | Returns (e, tls', f') => Returns (e, tls', as_pipe f')
    | Aborts why => Aborts why
    end.
Proof.
  induction tls as [|tl tls IH]; intros f; cbn [readTadTagLists].
  - reflexivity.
  - rewrite readTadTagList_as_pipe.
    destruct (readTadTagList env f tl) as [[[e tl'] f1]|]; [|reflexivity].
    destruct (negb (Error_eqb e ErrorNone)); [reflexivity|].
    rewrite IH.
    destruct (readTadTagLists env f1 tls) as [[[e2 r2] f2]|]; reflexivity.
Qed.

Lemma readTadHeader_as_pipe env f caller :
  readTadHeader env (as_pipe f) caller
  = match readTadHeader env f caller with
    | Returns (e, a, f') => Returns (e, a, as_pipe f')
    | Aborts why => Aborts why
    end.
Proof.
  unfold readTadHeader. rewrite fread_as_pipe.
  destruct (fread (5 + 2 * 8) 1 f) as [[r start] f1].
  destruct (negb (r =? 1)); [reflexivity|].
  destruct (_ || _); [reflexivity|].
  destruct (negb (allocatable _ _)); [reflexivity|].
  rewrite fread_as_pipe.
  destruct (fread 8 _ f1) as [[r' raw] f2].
  destruct (negb (r' =? _)); [reflexivity|].
  destruct (ArrayContainer_new _ _ _ _) as [a0|]; [|reflexivity].
  rewrite readTadTagList_as_pipe.
  destruct (readTadTagList env f2 _) as [[[e1 g] f3]|]; [|reflexivity].
  cbv zeta.
  destruct (negb (Error_eqb e1 ErrorNone)); [reflexivity|].
  rewrite readTadTagLists_as_pipe.
  destruct (readTadTagLists env f3 _) as [[[e2 cs] f4]|]; [|reflexivity].
  destruct (negb (Error_eqb e2 ErrorNone)); [reflexivity|].
  rewrite readTadTagLists_as_pipe.
  destruct (readTadTagLists env f4 _) as [[[e3 ds] f5]|]; reflexivity.
Qed.

(** [readArray(-1)] on a pipe does what it does on a regular file with the
    same bytes and the same cursor: it returns the same container and the
    same error and leaves the cursor at the same place. *)
Theorem sequential_read_needs_no_seek env st error :
  readArray env (behind_pipe st) error (-1)
  = match readArray env st error (-1) with
    | Returns (a, e, st') => Returns (a, e, behind_pipe st')
    | Aborts why => Aborts why
    end.
Proof.
  rewrite !readArray_sequential. unfold readArray_body, behind_pipe.
  destruct (_f st) as [f|]; cbn [option_map _f]; [|reflexivity].
  rewrite readTadHeader_as_pipe.
  destruct (readTadHeader env f _) as [[[e a] f1]|]; [|reflexivity].
  destruct (negb (Error_eqb e ErrorNone)); [reflexivity|].
  unfold readTadData. rewrite fread_as_pipe.
  destruct (fread _ 1 f1) as [[r got] f2].
  destruct (negb (Error_eqb _ ErrorNone)); reflexivity.
Qed.

(** ** Reads by index do not depend on the cursor *)

(** Once the count is cached, what [readArray] returns for an index does
    not depend on where earlier reads left the cursor. *)
Theorem indexed_read_ignores_cursor env st f p error i :
  _f st = Some f -> 0 <= _arrayCount st -> 0 <= i ->
  result_of (readArray env (with_file st (set_position f p)) error i)
  = result_of (readArray env st error i).
Proof.
  intros Hf Hcount Hi. unfold readArray.
  replace (i >=? 0) with true by (symmetry; apply Z.geb_le; lia).
  unfold arrayCount. cbn [with_file _arrayCount _f _arrayOffsets].
  replace (_arrayCount st >=? -1) with true by (symmetry; apply Z.geb_le; lia).
  replace (_arrayCount st <? 0) with false by (symmetry; apply Z.ltb_ge; lia).
  cbn [with_file _arrayCount _f _arrayOffsets].
  replace (_arrayCount st >=? -1) with true by (symmetry; apply Z.geb_le; lia).
  destruct (i >=? _arrayCount st); [reflexivity|].
  cbn [with_file _arrayCount _f _arrayOffsets]. rewrite Hf.
  destruct (nth_error _ _) as [offset|]; [|reflexivity].
  unfold fseeko. cbn [set_position seekable contents capacity position].
  destruct (_ && _); [|reflexivity].
  cbn [Z.ltb Z.compare]. reflexivity.
Qed.

(** ** Reading what the writer emitted *)

Lemma set_position_twice f p q : set_position (set_position f p) q = set_position f q.
Proof. reflexivity. Qed.

Lemma set_position_same f : set_position f (position f) = f.
Proof. destruct f; reflexivity. Qed.

Lemma remaining_after f (chunk rest : list byte) :
  remaining f = chunk ++ rest ->
  remaining (set_position f (position f + length chunk)) = rest.
Proof.
  intros H. rewrite remaining_advance, H, skipn_app, skipn_all, Nat.sub_diag.
  reflexivity.
Qed.

Lemma fread_next f (chunk rest : list byte) size :
  remaining f = chunk ++ rest ->
  size = Z.of_nat (length chunk) ->
  0 < size ->
  fread size 1 f = (1, chunk, set_position f (position f + length chunk)).
Proof.
  intros Hrem -> Hpos.
  rewrite fread_complete by (rewrite ?Hrem, ?length_app; lia).
  rewrite Hrem, Nat2Z.id, firstn_app, Nat.sub_diag, firstn_all, app_nil_r.
  reflexivity.
Qed.

Lemma fread_elements f (chunk rest : list byte) count :
  remaining f = chunk ++ rest ->
  length chunk = (8 * count)%nat ->
  fread 8 (Z.of_nat count) f
  = (Z.of_nat count, chunk, set_position f (position f + length chunk)).
Proof.
  intros Hrem Hlen. unfold fread.
  destruct (8 * Z.of_nat count =? 0) eqn:Hz.
  - apply Z.eqb_eq in Hz. assert (count = 0%nat) by lia. subst count.
    destruct chunk; [|simpl in Hlen; lia].
    simpl. rewrite Nat.add_0_r, set_position_same. reflexivity.
  - rewrite Hrem.
    replace (Z.to_nat (8 * Z.of_nat count)) with (length chunk) by lia.
    rewrite firstn_app, Nat.sub_diag, firstn_all, app_nil_r.
    rewrite Hlen. f_equal. f_equal.
    replace (Z.of_nat (8 * count)) with (Z.of_nat count * 8) by lia.
    apply Z.div_mul. lia.
Qed.

Lemma load_u64s_stored o dims :
  Forall (fun d => 0 <= d <= SIZE_MAX) dims ->
  load_u64s o (length dims) (flat_map (store_u64 o) dims) = dims.
Proof.
  induction 1 as [|d dims Hd Hdims IH]; cbn [length load_u64s flat_map].
  - reflexivity.
  - rewrite firstn_store_u64, skipn_store_u64, load_store_u64, IH by assumption.
    reflexivity.
Qed.

Lemma flat_map_store_length o dims :
  length (flat_map (store_u64 o) dims) = (8 * length dims)%nat.
Proof.
  induction dims as [|d dims IH]; cbn [flat_map length]; [reflexivity|].
  rewrite length_app, store_u64_length, IH. lia.
Qed.

Lemma tag_block_length o tl :
  length (tag_block o tl) = (8 + length (tag_payload tl))%nat.
Proof. unfold tag_block. now rewrite length_app, store_u64_length. Qed.

Lemma readTadTagList_written env f tl rest :
  one_tag env tl ->
  remaining f = tag_block (byte_order env) tl ++ rest ->
  readTadTagList env f []
  = Returns (ErrorNone, behead tl,
             set_position f (position f + length (tag_block (byte_order env) tl))).
Proof.
  intros (key & c & value & -> & Hk & Hv & Halloc) Hrem.
  pose proof (allocatable_range env _ Halloc) as [Hn _].
  assert (Hlen : length (tag_payload [(key, c :: value)])
                 = (length key + length value + 3)%nat).
  { unfold tag_payload. cbn [flat_map fst snd].
    rewrite app_nil_r, ?length_app; simpl; rewrite ?length_app; simpl; lia. }
  unfold readTadTagList.
  set (payload := tag_payload [(key, c :: value)]) in *.
  set (n := Z.of_nat (length payload)).
  assert (Hrem' : remaining f = store_u64 (byte_order env) n ++ payload ++ rest).
  { rewrite Hrem. unfold tag_block. now rewrite <- app_assoc. }
  rewrite (fread_next f _ _ 8 Hrem') by (rewrite ?store_u64_length; lia).
  rewrite Z.eqb_refl. cbn [negb].
  rewrite load_store_u64 by (subst n; unfold SIZE_MAX, PTRDIFF_MAX in *; lia).
  destruct (n >? SIZE_MAX) eqn:Hbig.
  { apply Z.gtb_lt in Hbig. subst n. unfold SIZE_MAX, PTRDIFF_MAX in *. lia. }
  assert (Halloc' : allocatable env n = true) by (subst n; now rewrite Hlen).
  rewrite Halloc'. cbn [negb].
  apply remaining_after in Hrem'.
  rewrite (fread_next _ _ _ n Hrem') by (subst n; lia).
  rewrite Z.eqb_refl. cbn [negb].
  subst payload. rewrite readTadTags_written_tag by (assumption || lia).
  rewrite set_position_twice. cbn [position set_position].
  rewrite tag_block_length, store_u64_length, Nat.add_assoc. reflexivity.
Qed.

Lemma readTadTagLists_written env tls : forall f rest,
  Forall (one_tag env) tls ->
  remaining f = flat_map (tag_block (byte_order env)) tls ++ rest ->
  readTadTagLists env f (repeat [] (length tls))
  = Returns (ErrorNone, map behead tls,
             set_position f
               (position f + length (flat_map (tag_block (byte_order env)) tls))).
Proof.
  induction tls as [|tl tls IH]; intros f rest Hall Hrem;
    cbn [length repeat readTadTagLists flat_map map].
  - simpl. now rewrite Nat.add_0_r, set_position_same.
  - inversion Hall as [|? ? Htl Hall']; subst.
    cbn [flat_map] in Hrem. rewrite <- app_assoc in Hrem.
    rewrite (readTadTagList_written env f tl _ Htl Hrem).
    cbn [Error_eqb negb].
    apply remaining_after in Hrem.
    rewrite (IH _ rest Hall' Hrem).
    rewrite set_position_twice. cbn [position set_position].
    rewrite length_app, Nat.add_assoc. reflexivity.
Qed.

Lemma gtb_false x y : x <= y -> (x >? y) = false.
Proof. intros H. rewrite Z.gtb_ltb. apply Z.ltb_ge. exact H. Qed.

Lemma record_header_length o a :
  length (record_header o a) = (21 + 8 * length (dimensions a))%nat.
Proof.
  unfold record_header. rewrite !length_app, !store_u64_length, flat_map_store_length.
  simpl. lia.
Qed.

Lemma forallb_in_range dims :
  Forall (fun d => 0 <= d <= SIZE_MAX) dims ->
  forallb (fun d => (0 <=? d) && (d <=? SIZE_MAX)) dims = true.
Proof.
  intros H. apply forallb_forall. rewrite Forall_forall in H.
  intros d Hd. apply H in Hd. apply andb_true_iff. split; apply Z.leb_le; lia.
Qed.

Lemma readTadPreamble_written env f a rest :
  readable env a ->
  remaining f = record_header (byte_order env) a ++ rest ->
  readTadPreamble env f
  = Some (mkArray (dimensions a) (componentCount a) (componentType a) []
            (repeat [] (Z.to_nat (componentCount a)))
            (repeat [] (length (dimensions a)))
            (repeat Byte.x00 (Z.to_nat (dataSize env a))),
          set_position f (position f + length (record_header (byte_order env) a))).
Proof.
  intros (Hwf & Hty & Hpos & Hdata & Hcomps & Hdims & _) Hrem.
  destruct Hwf as (Hd & Hcc & Hty0 & _).
  set (o := byte_order env) in *.
  set (start := [Byte.x54; Byte.x41; Byte.x44; Byte.x00; byte.of_Z (componentType a)]
                ++ store_u64 o (componentCount a)
                ++ store_u64 o (dimensionCount a)).
  assert (Hrem1 : remaining f = start ++ flat_map (store_u64 o) (dimensions a) ++ rest).
  { rewrite Hrem. unfold record_header. subst start.
    rewrite <- !app_assoc. reflexivity. }
  assert (Hstart : length start = 21%nat).
  { subst start. rewrite !length_app, !store_u64_length. reflexivity. }
  unfold readTadPreamble. fold o. change (5 + 2 * 8) with 21.
  rewrite (fread_next f _ _ 21 Hrem1) by lia.
  rewrite Z.eqb_refl. cbn [negb].
  assert (Hcc1 : load_u64 o (firstn 8 (skipn 5 start)) = componentCount a).
  { subst start. cbn [app skipn]. rewrite firstn_store_u64.
    apply load_store_u64. lia. }
  assert (Hdc1 : load_u64 o (firstn 8 (skipn (5 + 8) start)) = dimensionCount a).
  { subst start. cbn [app skipn Nat.add]. 
    change (skipn 13 ?l) with (skipn 13 l).
    replace (store_u64 o (dimensionCount a))
      with (store_u64 o (dimensionCount a) ++ []) by apply app_nil_r.
    match goal with
    | |- load_u64 o (firstn 8 ?l) = _ =>
        replace l with (store_u64 o (dimensionCount a) ++ [])
    end.
    - rewrite firstn_store_u64. apply load_store_u64.
      unfold dimensionCount. apply allocatable_range in Hdims.
      unfold dimensionCount, SIZE_MAX, PTRDIFF_MAX in *. lia.
    - symmetry. apply (skipn_store_u64 o (componentCount a)). }
  rewrite Hcc1, Hdc1.
  assert (Hty1 : byte.unsigned (nth 4 start Byte.x00) = componentType a).
  { subst start. cbn [app nth]. rewrite byte.unsigned_of_Z. unfold byte.wrap.
    apply Z.mod_small. lia. }
  rewrite Hty1.
  change (byte.unsigned (nth 0 start Byte.x00)) with 84.
  change (byte.unsigned (nth 1 start Byte.x00)) with 65.
  change (byte.unsigned (nth 2 start Byte.x00)) with 68.
  change (byte.unsigned (nth 3 start Byte.x00)) with 0.
  cbn [Z.eqb Pos.eqb negb orb].
  rewrite (gtb_false (componentType a) 15) by lia.
  rewrite (gtb_false (componentCount a) SIZE_MAX) by lia.
  rewrite (gtb_false (dimensionCount a) SIZE_MAX)
    by (apply allocatable_range in Hdims;
        unfold dimensionCount, SIZE_MAX, PTRDIFF_MAX in *; lia).
  cbn [orb]. rewrite Hdims. cbn [negb].
  apply remaining_after in Hrem1.
  unfold dimensionCount.
  rewrite (fread_elements _ _ _ (length (dimensions a)) Hrem1)
    by apply flat_map_store_length.
  rewrite Z.eqb_refl. cbn [negb]. rewrite Nat2Z.id.
  rewrite load_u64s_stored by assumption.
  unfold ArrayContainer_new.
  change (dataSizeOf env (dimensions a) (componentCount a) (componentType a))
    with (dataSize env a).
  rewrite Hdata, Hcomps, forallb_in_range by assumption. cbn [andb].
  rewrite set_position_twice. cbn [position set_position].
  rewrite record_header_length, flat_map_store_length, Hstart.
  rewrite <- Nat.add_assoc. reflexivity.
Qed.

(** The record layout of a well-formed array, without the [firstn]. *)
Lemma record_layout_well_formed env a :
  well_formed env a ->
  record_layout env a
  = record_header (byte_order env) a
    ++ tag_block (byte_order env) (globalTagList a)
    ++ flat_map (tag_block (byte_order env)) (componentTagLists a)
    ++ flat_map (tag_block (byte_order env)) (dimensionTagLists a)
    ++ data a.
Proof.
  intros (_ & _ & _ & Hc & Hd & Hdata). unfold record_layout.
  rewrite <- Hc, <- Hd, !firstn_all.
  rewrite firstn_all2 by lia. reflexivity.
Qed.

Lemma readTadHeader_written env f caller a rest :
  readable env a ->
  remaining f
  = record_header (byte_order env) a
    ++ tag_block (byte_order env) (globalTagList a)
    ++ flat_map (tag_block (byte_order env)) (componentTagLists a)
    ++ flat_map (tag_block (byte_order env)) (dimensionTagLists a)
    ++ rest ->
  readTadHeader env f caller
  = Returns (ErrorNone,
             set_data (as_read a) (repeat Byte.x00 (Z.to_nat (dataSize env a))),
             set_position f
               (position f
                + length (record_header (byte_order env) a)
                + length (tag_block (byte_order env) (globalTagList a))
                + length (flat_map (tag_block (byte_order env)) (componentTagLists a))
                + length (flat_map (tag_block (byte_order env)) (dimensionTagLists a)))).
Proof.
  intros Hok Hrem.
  pose proof Hok as (Hwf & Hty & Hpos & Hdata & Hcomps & Hdims & Hg & Hc & Hd).
  pose proof Hwf as (_ & Hcc & _ & Hlc & Hld & Hldata).
  rewrite (readTadHeader_after_preamble _ _ _ _ _
             (readTadPreamble_written env f a _ Hok Hrem)).
  cbn [globalTagList componentTagLists dimensionTagLists
         set_globalTagList set_componentTagLists set_dimensionTagLists
         dimensions componentCount componentType data].
  apply remaining_after in Hrem.
  rewrite (readTadTagList_written env _ _ _ Hg Hrem).
  cbv zeta. cbn [Error_eqb negb].
  cbn [globalTagList componentTagLists dimensionTagLists
         set_globalTagList set_componentTagLists set_dimensionTagLists
         dimensions componentCount componentType data].
  apply remaining_after in Hrem.
  rewrite <- Hlc.
  pose proof (readTadTagLists_written env _ _ _ Hc Hrem) as Hcs.
  unfold TagList in *. rewrite Hcs.
  cbn [Error_eqb negb].
  apply remaining_after in Hrem.
  rewrite <- Hld.
  pose proof (readTadTagLists_written env _ _ _ Hd Hrem) as Hds.
  unfold TagList in *. rewrite Hds.
  rewrite !set_position_twice. cbn [position set_position].
  reflexivity.
Qed.

(** A readable array is written as its record layout and read back as
    the array with the first byte of every tag value gone; the read
    returns no error code and leaves the cursor behind the record. *)
Theorem read_of_written_record env st f a rest error :
  _f st = Some f ->
  readable env a ->
  remaining f = record_layout env a ++ rest ->
  readArray env st error (-1)
  = Returns (as_read a, error,
             with_file st
               (set_position f (position f + length (record_layout env a)))).
Proof.
  intros Hf Hok Hrem.
  pose proof Hok as (Hwf & _ & Hpos & _).
  pose proof Hwf as (_ & _ & _ & _ & _ & Hldata).
  rewrite (record_layout_well_formed env a Hwf) in *.
  rewrite <- !app_assoc in Hrem.
  rewrite readArray_sequential. unfold readArray_body. rewrite Hf.
  rewrite (readTadHeader_written env f _ a _ Hok Hrem).
  cbn [Error_eqb negb].
  do 4 (apply remaining_after in Hrem).
  rewrite !set_position_twice in Hrem. cbn [position set_position] in Hrem.
  unfold readTadData.
  change (dataSize env (set_data (as_read a) _)) with (dataSize env a).
  rewrite (fread_next _ (data a) rest (dataSize env a) Hrem) by lia.
  rewrite Z.eqb_refl. cbn [negb Error_eqb data set_data as_read].
  rewrite skipn_all2 by (rewrite repeat_length; lia).
  rewrite app_nil_r, !set_position_twice. cbn [position set_position].
  unfold as_read, with_file, set_data.
  cbn [dimensions componentCount componentType globalTagList
         componentTagLists dimensionTagLists data].
  rewrite !length_app, !Nat.add_assoc. reflexivity.
Qed.

(** ** Writing with room to spare *)

Lemma appended_twice f a b : appended (appended f a) b = appended f (a ++ b).
Proof. unfold appended. cbn [contents seekable capacity]. now rewrite app_assoc. Qed.

Lemma fwrite_room buf f :
  (0 < length buf)%nat ->
  file_size f + Z.of_nat (length buf) <= capacity f ->
  fwrite buf f = (1, appended f buf).
Proof.
  intros Hlen Hroom. unfold fwrite, appended.
  destruct (Z.of_nat (length buf) =? 0) eqn:Hz; [lia|].
  rewrite firstn_all2 by lia.
  now replace (_ <=? _) with true by (symmetry; apply Z.leb_le; lia).
Qed.

Lemma file_size_appended f bytes :
  file_size (appended f bytes) = file_size f + Z.of_nat (length bytes).
Proof. unfold file_size, appended. cbn [contents]. rewrite length_app. lia. Qed.

Lemma writeTadTagList_room env f tl :
  file_size f + Z.of_nat (length (tag_block (byte_order env) tl)) <= capacity f ->
  writeTadTagList env f tl = (true, appended f (tag_block (byte_order env) tl)).
Proof.
  intros Hroom. unfold writeTadTagList. rewrite appendTag_payload.
  replace (Z.of_nat (length (repeat Byte.x00 8 ++ tag_payload tl)) - 8)
    with (Z.of_nat (length (tag_payload tl)))
    by (rewrite length_app, repeat_length; lia).
  rewrite memcpy_front
    by (rewrite store_u64_length, length_app, repeat_length; lia).
  rewrite store_u64_length.
  change (skipn 8 (repeat Byte.x00 8 ++ tag_payload tl)) with (tag_payload tl).
  change (store_u64 (byte_order env) (Z.of_nat (length (tag_payload tl)))
          ++ tag_payload tl)
    with (tag_block (byte_order env) tl).
  pose proof (tag_block_length (byte_order env) tl) as Hlen.
  rewrite fwrite_room by lia.
  reflexivity.
Qed.

Lemma appended_nothing f :
  position f = length (contents f) -> appended f [] = f.
Proof.
  destruct f as [c p s k]. unfold appended. cbn [contents position seekable capacity].
  intros ->. now rewrite app_nil_r.
Qed.

Lemma writeTadTagLists_room env (tls : list TagList) n : forall first f,
  position f = length (contents f) ->
  (first + n <= length tls)%nat ->
  file_size f
  + Z.of_nat (length (flat_map (tag_block (byte_order env)) (firstn n (skipn first tls))))
  <= capacity f ->
  writeTadTagLists env (nth_error tls) (seq first n) f
  = Returns (true,
             appended f (flat_map (tag_block (byte_order env))
                           (firstn n (skipn first tls)))).
Proof.
  induction n as [|n IH]; intros first f Hend Hlen Hroom; cbn [seq writeTadTagLists].
  - cbn [firstn flat_map]. now rewrite appended_nothing.
  - destruct (nth_error tls first) as [tl|] eqn:Hget.
    2:{ apply nth_error_None in Hget. lia. }
    rewrite (skipn_nth_error _ _ _ Hget) in *. cbn [firstn flat_map] in *.
    rewrite length_app in Hroom.
    rewrite writeTadTagList_room by lia.
    rewrite IH by (rewrite ?file_size_appended; cbn [capacity appended]; 
                   try reflexivity; lia).
    now rewrite appended_twice.
Qed.

(** A well-formed array with data is accepted when the medium has room
    for its record: [writeArray] returns [ErrorNone] and the record layout
    is appended to the stream. *)
Theorem writeArray_accepts env st f a :
  _f st = Some f ->
  position f = length (contents f) ->
  well_formed env a ->
  0 < dataSize env a ->
  file_size f + Z.of_nat (length (record_layout env a)) <= capacity f ->
  writeArray env st a
  = Returns (ErrorNone, with_file st (appended f (record_layout env a))).
Proof.
  intros Hf Hend Hwf Hpos Hroom.
  pose proof Hwf as (_ & _ & _ & Hlc & Hld & Hldata).
  unfold writeArray, writeTad. rewrite Hf, writeTad_start_header.
  rewrite (record_layout_well_formed env a Hwf) in Hroom.
  rewrite !length_app in Hroom.
  pose proof (record_header_length (byte_order env) a) as Hh.
  rewrite fwrite_room by lia. rewrite Z.eqb_refl. cbn [negb].
  rewrite writeTadTagList_room
    by (rewrite file_size_appended; cbn [capacity appended]; lia).
  cbn [negb].
  unfold componentTagList, dimensionTagList.
  rewrite <- Hlc.
  rewrite writeTadTagLists_room; cycle 1.
  { reflexivity. }
  { lia. }
  { cbn [skipn]. rewrite firstn_all, !file_size_appended. cbn [capacity appended]. lia. }
  rewrite <- Hld.
  rewrite writeTadTagLists_room; cycle 1.
  { reflexivity. }
  { lia. }
  { cbn [skipn]. rewrite !firstn_all, !file_size_appended, ?length_app.
    cbn [capacity appended]. lia. }
  replace (Z.of_nat (length (data a)) <? dataSize env a) with false
    by (symmetry; apply Z.ltb_ge; lia).
  rewrite firstn_all2 by lia.
  rewrite fwrite_room; cycle 1.
  { lia. }
  { rewrite !file_size_appended. cbn [skipn]. rewrite !firstn_all.
    cbn [capacity appended]. lia. }
  rewrite Z.eqb_refl. cbn [skipn]. rewrite !firstn_all, !appended_twice.
  rewrite (record_layout_well_formed env a Hwf), <- ?app_assoc. reflexivity.
Qed.

(** ** Counting written records *)

Lemma remaining_length f :
  length (remaining f) = (length (contents f) - position f)%nat.
Proof. unfold remaining. apply length_skipn. Qed.

Lemma record_layout_not_empty env a :
  well_formed env a -> (21 <= length (record_layout env a))%nat.
Proof.
  intros Hwf. rewrite (record_layout_well_formed env a Hwf), length_app.
  rewrite record_header_length. lia.
Qed.

Lemma peek_remaining f b rest : remaining f = b :: rest -> peek f = true.
Proof. unfold peek. now intros ->. Qed.

Lemma scanArrays_written env arrays : forall fuel count f offsets,
  Forall (readable env) arrays ->
  seekable f = true ->
  remaining f = flat_map (record_layout env) arrays ->
  Z.of_nat (length (contents f)) <= PTRDIFF_MAX ->
  (length arrays <= fuel)%nat ->
  Z.of_nat (length offsets + length arrays) < INT_MAX ->
  scanArrays env fuel count f offsets
  = Returns (ScanEnd
               (set_position f
                  (position f + length (flat_map (record_layout env) arrays)))
               (offsets ++ record_offsets env (position f) arrays)).
Proof.
  induction arrays as [|a arrays IH]; intros fuel count f offsets Hall Hseek Hrem
    Hsize Hfuel Hmax.
  - cbn [flat_map record_offsets length] in *.
    assert (Hpeek : peek f = false) by (unfold peek; now rewrite Hrem).
    destruct fuel; cbn [scanArrays]; rewrite Hpeek;
      now rewrite Nat.add_0_r, set_position_same, app_nil_r.
  - inversion Hall as [|? ? Hok Hall']; subst.
    pose proof Hok as (Hwf & _ & Hpos & Hdata & _).
    pose proof Hwf as (_ & _ & _ & _ & _ & Hldata).
    cbn [flat_map record_offsets length] in *.
    destruct fuel as [|fuel]; [lia|].
    pose proof (record_layout_not_empty env a Hwf) as Hne.
    assert (Hpeek : peek f = true).
    { destruct (record_layout env a) as [|b l] eqn:Hl; [simpl in Hne; lia|].
      eapply peek_remaining. rewrite Hrem. reflexivity. }
    cbn [scanArrays]. rewrite Hpeek.
    unfold ftello at 1. rewrite Hseek.
    replace (Z.of_nat (position f) <? 0) with false by (symmetry; apply Z.ltb_ge; lia).
    pose proof (remaining_length f) as Hrl. rewrite Hrem, length_app in Hrl.
    rewrite (record_layout_well_formed env a Hwf) in Hrem, Hrl.
    rewrite <- !app_assoc in Hrem. rewrite !length_app in Hrl.
    rewrite (readTadHeader_written env f _ a _ Hok Hrem).
    cbn [Error_eqb negb].
    do 4 (apply remaining_after in Hrem).
    rewrite !set_position_twice in Hrem. cbn [position set_position] in Hrem.
    set (p1 := (position f + length (record_header (byte_order env) a)
                + length (tag_block (byte_order env) (globalTagList a))
                + length (flat_map (tag_block (byte_order env)) (componentTagLists a))
                + length (flat_map (tag_block (byte_order env)) (dimensionTagLists a)))%nat)
      in *.
    unfold skipTadData, fseeko.
    change (dataSize env (set_data (as_read a) _)) with (dataSize env a).
    apply allocatable_range in Hdata as [Hrange _].
    rewrite to_off_t_small by exact Hrange.
    cbn [position set_position seekable]. rewrite Hseek.
    replace (0 <=? Z.of_nat p1 + dataSize env a) with true
      by (symmetry; apply Z.leb_le; lia).
    replace (Z.of_nat p1 + dataSize env a <=? PTRDIFF_MAX) with true
      by (symmetry; apply Z.leb_le; subst p1; lia).
    cbn [andb]. rewrite Z.eqb_refl. cbn [negb].
    rewrite set_position_twice.
    replace (Z.to_nat (Z.of_nat p1 + dataSize env a))
      with (p1 + length (data a))%nat by lia.
    apply remaining_after in Hrem.
    rewrite set_position_twice in Hrem. cbn [position set_position] in Hrem.
    unfold ftello. rewrite Hseek.
    replace (Z.of_nat (length (offsets ++ [Z.of_nat (position f)])) =? INT_MAX)
      with false
      by (symmetry; apply Z.eqb_neq; rewrite length_app; simpl; lia).
    cbn [andb].
    rewrite IH; try assumption.
    + rewrite set_position_twice. cbn [position set_position].
      rewrite <- app_assoc. cbn [app].
      rewrite (record_layout_well_formed env a Hwf).
      subst p1. rewrite !length_app, !Nat.add_assoc. reflexivity.
    + lia.
    + rewrite length_app. simpl. lia.
Qed.

Lemma records_length env arrays :
  Forall (readable env) arrays ->
  (length arrays <= length (flat_map (record_layout env) arrays))%nat.
Proof.
  induction 1 as [|a arrays Hok Hall IH]; cbn [flat_map length]; [lia|].
  destruct Hok as (Hwf & _).
  pose proof (record_layout_not_empty env a Hwf). rewrite length_app. lia.
Qed.

Lemma to_int_small n : 0 <= n < INT_MAX -> to_int n = n.
Proof.
  intros Hn. unfold to_int, INT_MAX in *. rewrite Z.mod_small by lia. lia.
Qed.

Lemma seekable_set_position f p : seekable (set_position f p) = seekable f.
Proof. reflexivity. Qed.

Lemma rewind_seekable f : seekable f = true -> rewind f = set_position f 0.
Proof. unfold rewind, fseeko. now intros ->. Qed.

Lemma record_offsets_length env arrays : forall start,
  length (record_offsets env start arrays) = length arrays.
Proof.
  induction arrays as [|a arrays IH]; intros start; cbn [record_offsets length];
    [reflexivity | now rewrite IH].
Qed.

(** On a regular file that holds the records of readable arrays and
    nothing else, the first [arrayCount] answers their number, leaves the
    cursor where it was and keeps the table of the offsets at which the
    records start. *)
Theorem arrayCount_of_written_records env arrays st f :
  Forall (readable env) arrays ->
  _f st = Some f ->
  seekable f = true ->
  contents f = flat_map (record_layout env) arrays ->
  Z.of_nat (position f) <= PTRDIFF_MAX ->
  Z.of_nat (length (contents f)) <= PTRDIFF_MAX ->
  _arrayCount st < -1 ->
  _arrayOffsets st = [] ->
  Z.of_nat (length arrays) < INT_MAX ->
  arrayCount env st
  = Returns (Z.of_nat (length arrays),
             mkTAD (Some f) (Z.of_nat (length arrays))
               (record_offsets env 0 arrays)).
Proof.
  intros Hall Hf Hseek Hcontents Hpos Hsize Hcount Hoffsets Hmax.
  unfold arrayCount. rewrite (geb_false _ _ Hcount), Hf.
  unfold ftello. rewrite Hseek.
  replace (Z.of_nat (position f) <? 0) with false by (symmetry; apply Z.ltb_ge; lia).
  rewrite (rewind_seekable f Hseek).
  pose proof (records_length env arrays Hall) as Hlen.
  rewrite (scanArrays_written env arrays _ _ (set_position f 0) _ Hall Hseek).
  - unfold fseeko. rewrite !set_position_twice, seekable_set_position.
    rewrite Hseek, Hoffsets.
    replace (0 <=? Z.of_nat (position f)) with true by (symmetry; apply Z.leb_le; lia).
    replace (Z.of_nat (position f) <=? PTRDIFF_MAX) with true
      by (symmetry; apply Z.leb_le; lia).
    cbn [andb Z.ltb Z.compare app]. rewrite ?set_position_twice, Nat2Z.id.
    rewrite set_position_same, record_offsets_length, to_int_small by lia.
    reflexivity.
  - exact Hcontents.
  - exact Hsize.
  - change (contents (set_position f 0)) with (contents f).
    rewrite Hcontents. lia.
  - rewrite Hoffsets. simpl. lia.
Qed.

Lemma record_offsets_nth env arrays : forall start i a,
  nth_error arrays i = Some a ->
  nth_error (record_offsets env start arrays) i
  = Some (Z.of_nat
            (start + length (flat_map (record_layout env) (firstn i arrays)))).
Proof.
  induction arrays as [|b arrays IH]; intros start [|i] a Hget;
    cbn [nth_error record_offsets firstn flat_map length] in *; try discriminate.
  - now rewrite Nat.add_0_r.
  - rewrite (IH _ _ _ Hget), length_app, Nat.add_assoc. reflexivity.
Qed.

Lemma flat_map_split {A B} (g : A -> list B) l i :
  flat_map g l = flat_map g (firstn i l) ++ flat_map g (skipn i l).
Proof. now rewrite <- flat_map_app, firstn_skipn. Qed.

(** On such a file, with the count uncomputed or not, [readArray(i)] for
    an index below the number of records returns the [i]-th array written,
    with the first byte of every tag value gone: the records are found at
    the right offsets. *)
Theorem readArray_of_written_records env arrays st f error i a :
  Forall (readable env) arrays ->
  _f st = Some f ->
  seekable f = true ->
  contents f = flat_map (record_layout env) arrays ->
  Z.of_nat (position f) <= PTRDIFF_MAX ->
  Z.of_nat (length (contents f)) <= PTRDIFF_MAX ->
  _arrayCount st < -1 ->
  _arrayOffsets st = [] ->
  Z.of_nat (length arrays) < INT_MAX ->
  nth_error arrays i = Some a ->
  result_of (readArray env st error (Z.of_nat i)) = Some (as_read a, error).
Proof.
  intros Hall Hf Hseek Hcontents Hpos Hsize Hcount Hoffsets Hmax Hget.
  assert (Hi : (i < length arrays)%nat) by (apply nth_error_Some; congruence).
  unfold readArray.
  replace (Z.of_nat i >=? 0) with true by (symmetry; apply Z.geb_le; lia).
  rewrite (arrayCount_of_written_records env arrays st f) by assumption.
  replace (Z.of_nat (length arrays) <? 0) with false by (symmetry; apply Z.ltb_ge; lia).
  unfold arrayCount at 1. cbn [_arrayCount].
  replace (Z.of_nat (length arrays) >=? -1) with true by (symmetry; apply Z.geb_le; lia).
  rewrite (geb_false (Z.of_nat i) (Z.of_nat (length arrays))) by lia.
  cbn [_f _arrayOffsets]. rewrite Nat2Z.id.
  rewrite (record_offsets_nth env arrays 0 i a Hget). cbn [Nat.add].
  set (off := length (flat_map (record_layout env) (firstn i arrays))).
  assert (Hoff : (off + length (record_layout env a) <= length (contents f))%nat).
  { rewrite Hcontents, (flat_map_split (record_layout env) arrays i).
    rewrite (skipn_nth_error _ _ _ Hget). cbn [flat_map].
    rewrite !length_app. subst off. lia. }
  unfold fseeko. rewrite Hseek.
  replace (0 <=? Z.of_nat off) with true by (symmetry; apply Z.leb_le; lia).
  replace (Z.of_nat off <=? PTRDIFF_MAX) with true by (symmetry; apply Z.leb_le; lia).
  cbn [andb Z.ltb Z.compare]. rewrite Nat2Z.id.
  rewrite <- readArray_sequential.
  erewrite read_of_written_record; [reflexivity | reflexivity | | ].
  - apply Forall_forall with (x := a) in Hall; [exact Hall|].
    eapply nth_error_In; eauto.
  - unfold remaining, set_position. cbn [position contents]. rewrite Hcontents.
    rewrite (flat_map_split (record_layout env) arrays i) at 1.
    subst off. rewrite skipn_app, skipn_all, Nat.sub_diag. cbn [skipn app].
    rewrite (skipn_nth_error _ _ _ Hget). reflexivity.
Qed.

(** Sequential reads, on any medium, return the arrays written in the
    order in which they were written, each with the first byte of every
    tag value gone. *)
Theorem readSequentially_of_written_records env arrays : forall st f rest,
  Forall (readable env) arrays ->
  _f st = Some f ->
  remaining f = flat_map (record_layout env) arrays ++ rest ->
  readSequentially env st (length arrays)
  = Returns (map (fun a => (as_read a, ErrorNone)) arrays,
             with_file st
               (set_position f
                  (position f + length (flat_map (record_layout env) arrays)))).
Proof.
  induction arrays as [|a arrays IH]; intros st f rest Hall Hf Hrem;
    cbn [length readSequentially map flat_map].
  - rewrite Nat.add_0_r, set_position_same. unfold with_file. rewrite <- Hf.
    destruct st; reflexivity.
  - inversion Hall as [|? ? Hok Hall']; subst.
    cbn [flat_map] in Hrem. rewrite <- app_assoc in Hrem.
    rewrite (read_of_written_record env st f a _ ErrorNone Hf Hok Hrem).
    apply remaining_after in Hrem.
    rewrite (IH (with_file st (set_position f
                                 (position f + length (record_layout env a))))
               _ rest Hall' eq_refl Hrem).
    unfold with_file. cbn [_arrayCount _arrayOffsets].
    rewrite set_position_twice. cbn [position set_position].
    rewrite length_app, Nat.add_assoc. reflexivity.
Qed.

(** ** Sessions *)

Lemma writeArrays_accepts env arrays : forall st f,
  _f st = Some f ->
  position f = length (contents f) ->
  Forall (readable env) arrays ->
  file_size f + Z.of_nat (length (flat_map (record_layout env) arrays))
  <= capacity f ->
  writeArrays env st arrays
  = Returns (repeat ErrorNone (length arrays),
             with_file st (appended f (flat_map (record_layout env) arrays))).
Proof.
  induction arrays as [|a arrays IH]; intros st f Hf Hend Hall Hroom;
    cbn [writeArrays length repeat flat_map] in *.
  - rewrite appended_nothing by exact Hend. unfold with_file. rewrite <- Hf.
    destruct st; reflexivity.
  - inversion Hall as [|? ? Hok Hall']; subst.
    destruct Hok as (Hwf & _ & Hpos & _).
    rewrite length_app in Hroom.
    rewrite (writeArray_accepts env st f a Hf Hend Hwf Hpos) by lia.
    rewrite (IH (with_file st (appended f (record_layout env a)))
               (appended f (record_layout env a)) eq_refl)
      by (try reflexivity; try assumption;
          rewrite file_size_appended; cbn [capacity appended]; lia).
    unfold with_file. cbn [_arrayCount _arrayOffsets].
    now rewrite appended_twice.
Qed.

(** A session that writes readable arrays to a medium with room for them
    reports no error and leaves their records on the medium, one after the
    other, behind the bytes that were there when the stream was opened to
    append. *)
Theorem write_session_of_readable env m (old : list byte) (append : bool) arrays :
  stored m = Some old ->
  Forall (readable env) arrays ->
  Z.of_nat (length ((if append then old else [])
                    ++ flat_map (record_layout env) arrays)) <= space m ->
  write_session env m append arrays
  = Returns (repeat ErrorNone (length arrays),
             mkMedium (Some ((if append then old else [])
                             ++ flat_map (record_layout env) arrays))
               (can_seek m) (space m)).
Proof.
  intros Hold Hall Hroom. unfold write_session, openForWriting, fopen.
  rewrite Hold. rewrite length_app in Hroom.
  erewrite writeArrays_accepts; [| reflexivity | | exact Hall | ].
  - unfold close. cbn [with_file _f snd]. unfold appended.
    destruct append; reflexivity.
  - destruct append; reflexivity.
  - destruct append; unfold file_size; cbn [contents capacity length] in *; lia.
Qed.

(** ** The reader against the writer *)

(** C1: [sample] is written without error, as its record layout, and read
    back without error, but the container read differs from the one
    written: the first byte of every tag value is lost, because
    [readString] reports the length with the terminator counted in and
    [readTadTagList] then steps one byte too far. *)
Theorem roundtrip_loses_value_bytes :
  write_session host disk false [sample]
  = Returns ([ErrorNone], file_holding (record_layout host sample))
  /\ result_of (readArray host (reader_on (file_holding (record_layout host sample)))
                  ErrorNone (-1))
     = Some (sample_read, ErrorNone)
  /\ globalTagList sample_read <> globalTagList sample.
Proof.
  split; [vm_compute; reflexivity|].
  split; [vm_compute; reflexivity|].
  discriminate.
Qed.

(** C2: one record is written without error, and [arrayCount] on the
    reopened regular file answers -1, not 1: the empty value of the global
    tag sits where the reader expects the byte past the value's start, so
    the header does not parse. *)
Theorem count_of_written_record_unknown :
  write_session host disk false [sample_empty_value]
  = Returns ([ErrorNone], file_holding (record_layout host sample_empty_value))
  /\ result_of (arrayCount host
                  (reader_on (file_holding (record_layout host sample_empty_value))))
     = Some (-1).
Proof. split; vm_compute; reflexivity. Qed.

(** C3: on a regular file holding the one record of [sample],
    [readArray(0)] succeeds and returns a container that is not the one
    written. *)
Theorem indexed_read_returns_other_container :
  result_of (readArray host (reader_on (file_holding (record_layout host sample)))
               ErrorNone 0)
  = Some (sample_read, ErrorNone)
  /\ sample_read <> sample.
Proof. split; [vm_compute; reflexivity | discriminate]. Qed.

(** C6: the tag block of the single tag "k" with the value of one byte 0x07
    decodes without error, to the tag "k" with the empty value. *)
Theorem control_byte_accepted :
  decode_tag_block host (tag_block LittleEndian [(text "k", [Byte.x07])])
  = Returns (ErrorNone, [(text "k", [])], mkFILE
               (tag_block LittleEndian [(text "k", [Byte.x07])]) 12 true 12).
Proof. vm_compute. reflexivity. Qed.

(** C7: on a tag block of declared length 1 whose payload is the byte 'A',
    [readString] goes on to [data[1]], past the end of the payload. *)
Theorem unterminated_string_overrun :
  readString [Byte.x41] = StringOverrun
  /\ decode_tag_block host (store_u64 LittleEndian 1 ++ [Byte.x41])
     = Aborts OutOfBounds.
Proof. split; vm_compute; reflexivity. Qed.

(** C8: on a pipe that holds one written record, the sequential read ends
    with [ErrorInvalidData]. *)
Theorem sequential_read_of_written_record_fails :
  write_session host disk false [sample_empty_value]
  = Returns ([ErrorNone], file_holding (record_layout host sample_empty_value))
  /\ result_of (readArray host
                  (reader_on (pipe_of (file_holding
                                         (record_layout host sample_empty_value))))
                  ErrorNone (-1))
     = Some (ArrayContainer_default host, ErrorInvalidData).
Proof. split; vm_compute; reflexivity. Qed.

(** C10: the tag block of the single tag "k" with the value of one byte
    0x80 decodes without error, to the tag "k" with the empty value. *)
Theorem high_byte_accepted :
  decode_tag_block host (tag_block LittleEndian [(text "k", [Byte.x80])])
  = Returns (ErrorNone, [(text "k", [])], mkFILE
               (tag_block LittleEndian [(text "k", [Byte.x80])]) 12 true 12).
Proof. vm_compute. reflexivity. Qed.

(** ** Requests of no bytes *)

(** The block of a tag list with no tag is eight zero bytes; reading it
    asks [fread] for an element of size 0, which returns 0, and
    [readTadTagList] answers [ErrorSysErrno]. *)
Theorem empty_tag_list_not_read :
  tag_block LittleEndian [] = repeat Byte.x00 8
  /\ decode_tag_block host (tag_block LittleEndian [])
     = Returns (ErrorSysErrno, [], mkFILE (repeat Byte.x00 8) 8 true 8).
Proof. split; vm_compute; reflexivity. Qed.

(** For an array with no data, [writeArray] emits header and tag blocks,
    asks [fwrite] for an element of size 0, which returns 0, and answers
    [ErrorSysErrno]. *)
Theorem array_without_data_not_written :
  result_of (writeArray host fresh_writer (mkArray [0] 1 1 [] [[]] [[]] []))
  = Some ErrorSysErrno.
Proof. vm_compute. reflexivity. Qed.

(** Fifty records whose tags the reader takes are counted as fifty, and an
    empty file as none. *)
Theorem count_of_fifty_records :
  write_session host disk false (repeat sample 50)
  = Returns (repeat ErrorNone 50,
             file_holding (flat_map (record_layout host) (repeat sample 50)))
  /\ result_of (arrayCount host
                  (reader_on (file_holding
                                (flat_map (record_layout host) (repeat sample 50)))))
     = Some 50
  /\ result_of (arrayCount host (reader_on (file_holding []))) = Some 0.
Proof. repeat split; vm_compute; reflexivity. Qed.
